(** * ConnectionPool: a shallow embedding of CommonConnectionPool.cpp

    The pool of the repository is one C++ class, [ConnectionPool], whose
    member functions run under a single mutex [_queueMutex].  Every
    critical section is therefore embedded as a function on the pool
    record; what the outside world decides (the clock, the result of
    [connect], the status with which [cv.wait_for] returns, the contents
    of [mysql.ini]) is an argument of that function, and what the pool
    does to the outside world (log lines, [cv.notify_all], thread
    creation, [delete]) is returned as a list of events. *)

From Stdlib Require Import ZArith List String Ascii Bool Lia Sorted Permutation.
Import ListNotations.

Local Open Scope string_scope.
Local Open Scope list_scope.
Local Open Scope Z_scope.

(** ** The integers of the machine *)

(** An [int] is 32 bits wide, two's complement: [to_int z] is the [int]
    that a computation with the mathematical result [z] leaves.  (Signed
    overflow is undefined in C++; the compiled multiplication and the
    conversion from [long] wrap around, and that is the value given
    here.) *)
Definition to_int (z : Z) : Z := (z + 2 ^ 31) mod 2 ^ 32 - 2 ^ 31.

(** [strtol] gives the nearest [long] (64 bits) when the number does not
    fit. *)
Definition to_long (z : Z) : Z := Z.max (- 2 ^ 63) (Z.min z (2 ^ 63 - 1)).

(** ** Strings, as [std::string] and the C library use them *)

Module Str.

Definition newline : ascii := "010"%char.
Definition nul : ascii := "000"%char.

(** [std::string::find(ch, pos)] stored in an [int]: the position of the
    first [ch] at or after [pos], and [-1] ([npos] narrowed to [int]) when
    there is none. *)
Fixpoint find_from (ch : ascii) (s : string) (i : Z) : Z :=
  match s with
  | EmptyString => -1
  | String c s' => if Ascii.eqb c ch then i else find_from ch s' (i + 1)
  end.

Fixpoint drop (n : nat) (s : string) : string :=
  match n, s with
  | O, _ => s
  | S _, EmptyString => EmptyString
  | S n', String _ s' => drop n' s'
  end.

Fixpoint take (n : nat) (s : string) : string :=
  match n, s with
  | O, _ => EmptyString
  | S _, EmptyString => EmptyString
  | S n', String c s' => String c (take n' s')
  end.

Definition find (ch : ascii) (pos : Z) (s : string) : Z :=
  find_from ch (drop (Z.to_nat pos) s) pos.

(** The conversion of an [int] argument to [size_t] (64 bits). *)
Definition to_size_t (z : Z) : Z := z mod 2 ^ 64.

(** [std::string::substr(pos, count)] for [0 <= pos <= size()]: the
    characters [pos, min(pos + count, size())), [count] being a [size_t]. *)
Definition substr (s : string) (pos count : Z) : string :=
  let avail := Z.of_nat (String.length s) - pos in
  take (Z.to_nat (Z.min (to_size_t count) avail)) (drop (Z.to_nat pos) s).

(** [string str = line;] on a [char] buffer: the characters before the
    first NUL. *)
Fixpoint of_c_str (buf : string) : string :=
  match buf with
  | EmptyString => EmptyString
  | String c buf' => if Ascii.eqb c nul then EmptyString else String c (of_c_str buf')
  end.

Definition isspace (c : ascii) : bool :=
  let n := nat_of_ascii c in
  (Nat.eqb n 32 || (Nat.leb 9 n && Nat.leb n 13))%bool.

Definition digit (c : ascii) : option Z :=
  let n := nat_of_ascii c in
  if (Nat.leb 48 n && Nat.leb n 57)%bool then Some (Z.of_nat n - 48) else None.

Fixpoint skip_spaces (s : string) : string :=
  match s with
  | String c s' => if isspace c then skip_spaces s' else s
  | EmptyString => s
  end.

Fixpoint digits (s : string) (acc : Z) : Z :=
  match s with
  | String c s' =>
      match digit c with
      | Some d => digits s' (10 * acc + d)
      | None => acc
      end
  | EmptyString => acc
  end.

(** The number a text spells: leading white space, an optional sign, then
    decimal digits up to the first other character. *)
Definition decimal (s : string) : Z :=
  match skip_spaces s with
  | String "-"%char s' => - digits s' 0
  | String "+"%char s' => digits s' 0
  | s' => digits s' 0
  end.

(** [atoi] returns an [int].  For a text whose number does not fit, C
    leaves the result undefined; the value here is the one the C library
    computes, [(int) strtol(s, NULL, 10)]: the number brought into the
    range of [long] and cut to 32 bits. *)
Definition atoi (s : string) : Z := to_int (to_long (decimal s)).

Fixpoint mem (ch : ascii) (s : string) : bool :=
  match s with
  | EmptyString => false
  | String c s' => (Ascii.eqb c ch || mem ch s')%bool
  end.

End Str.

(** ** The stream [FILE *pf] *)

Module Stdio.

(** The characters that can still be read, the end-of-file indicator, and
    what the device does once those characters are used up: the file ends
    there, or the read fails ([failing]). *)
Record FILE := on_device { rest : string; eof : bool; failing : bool }.

(** A stream on a device that reads without error. *)
Abbreviation mkFILE s e := (on_device s e false).

Definition feof (pf : FILE) : bool := eof pf.

(** The characters [fgets] stores for a buffer with room for [room]
    characters besides the terminating NUL: it stops after a newline, when
    the room is used up, at the end of the file, which sets the end-of-file
    indicator, or at a read error, which does not set it.  After a read
    error the buffer holds the characters read before it. *)
Fixpoint fgets_chars (bad : bool) (room : nat) (s : string) : string * FILE :=
  match room with
  | O => (EmptyString, on_device s false bad)
  | S room' =>
      match s with
      | EmptyString => (EmptyString, on_device EmptyString (negb bad) bad)
      | String c s' =>
          if Ascii.eqb c Str.newline then (String c EmptyString, on_device s' false bad)
          else let (l, pf') := fgets_chars bad room' s' in (String c l, pf')
      end
  end.

(** [char line[size] = { 0 }; fgets(line, size, pf);] and the buffer
    afterwards (all zero when nothing was read). *)
Definition fgets (size : nat) (pf : FILE) : string * FILE :=
  fgets_chars (failing pf) (Nat.pred size) (rest pf).

End Stdio.

(** ** The collaborator [Connection] *)

(** Modelled from the spec: class [Connection] (Connection.h) is not among
    the sources.  The spec gives a connection record an identity, an
    open/closed state and the time at which it last became idle, and the
    interface [open(...) -> ok/fail], [refreshIdleTimestamp()] and
    [idleDurationMs()]; the pool calls them [connect], [refreshAliveTime]
    and [getAliveeTime]. *)
Record Connection := mkConnection {
  conn_id : nat;        (* which object [new Connection()] returned *)
  conn_open : bool;     (* whether [connect] succeeded *)
  _alivetime : Z        (* the clock when it last became idle *)
}.

Definition new_Connection (id : nat) : Connection := mkConnection id false 0.

Definition connect (ok : bool) (c : Connection) : Connection :=
  mkConnection (conn_id c) ok (_alivetime c).

Definition refreshAliveTime (clock : Z) (c : Connection) : Connection :=
  mkConnection (conn_id c) (conn_open c) clock.

Definition getAliveeTime (clock : Z) (c : Connection) : Z := clock - _alivetime c.

(** ** What the pool does to its environment *)

Inductive task := producer | scanner.

Inductive event :=
| LOG (msg : string)
| notify_all
| thread_detach (t : task)
| delete (c : Connection).

Definition event_is_notify (e : event) : bool :=
  match e with notify_all => true | _ => false end.

Definition event_is_thread (e : event) : bool :=
  match e with thread_detach _ => true | _ => false end.

(** ** The pool object *)

(** Modelled from the spec: the class declaration (CommonConnectionPool.h)
    is not among the sources.  The fields are those the member functions
    read and write, typed as the spec's data model has them: host, port,
    credentials and database name, the floor [initSize], the ceiling
    [maxSize], the eviction threshold in seconds, the bounded wait in
    milliseconds, the FIFO queue of idle connections and the live count. *)
Record ConnectionPool := mkPool {
  _ip : string;
  _port : Z;
  _username : string;
  _password : string;
  _dbname : string;
  _initSize : Z;
  _maxSize : Z;
  _maxIdleTime : Z;
  _connectionTimeout : Z;
  _connectionQue : list Connection;   (* front of the queue first *)
  _connectionCnt : Z
}.

(** The configuration part of the object, for frame statements. *)
Definition config (p : ConnectionPool) :=
  (_ip p, _port p, _username p, _password p, _dbname p,
   _initSize p, _maxSize p, _maxIdleTime p, _connectionTimeout p).

(** [static ConnectionPool pool;] is zero-initialised before its
    constructor runs, and the constructor has no initialiser list: the
    strings and the queue are empty, the numbers are zero. *)
Definition static_pool : ConnectionPool :=
  mkPool EmptyString 0 EmptyString EmptyString EmptyString 0 0 0 0 [] 0.

Definition set_ip v p := mkPool v (_port p) (_username p) (_password p) (_dbname p)
  (_initSize p) (_maxSize p) (_maxIdleTime p) (_connectionTimeout p) (_connectionQue p) (_connectionCnt p).
Definition set_port v p := mkPool (_ip p) v (_username p) (_password p) (_dbname p)
  (_initSize p) (_maxSize p) (_maxIdleTime p) (_connectionTimeout p) (_connectionQue p) (_connectionCnt p).
Definition set_username v p := mkPool (_ip p) (_port p) v (_password p) (_dbname p)
  (_initSize p) (_maxSize p) (_maxIdleTime p) (_connectionTimeout p) (_connectionQue p) (_connectionCnt p).
Definition set_password v p := mkPool (_ip p) (_port p) (_username p) v (_dbname p)
  (_initSize p) (_maxSize p) (_maxIdleTime p) (_connectionTimeout p) (_connectionQue p) (_connectionCnt p).
Definition set_dbname v p := mkPool (_ip p) (_port p) (_username p) (_password p) v
  (_initSize p) (_maxSize p) (_maxIdleTime p) (_connectionTimeout p) (_connectionQue p) (_connectionCnt p).
Definition set_initSize v p := mkPool (_ip p) (_port p) (_username p) (_password p) (_dbname p)
  v (_maxSize p) (_maxIdleTime p) (_connectionTimeout p) (_connectionQue p) (_connectionCnt p).
Definition set_maxSize v p := mkPool (_ip p) (_port p) (_username p) (_password p) (_dbname p)
  (_initSize p) v (_maxIdleTime p) (_connectionTimeout p) (_connectionQue p) (_connectionCnt p).
Definition set_maxIdleTime v p := mkPool (_ip p) (_port p) (_username p) (_password p) (_dbname p)
  (_initSize p) (_maxSize p) v (_connectionTimeout p) (_connectionQue p) (_connectionCnt p).
Definition set_connectionTimeout v p := mkPool (_ip p) (_port p) (_username p) (_password p) (_dbname p)
  (_initSize p) (_maxSize p) (_maxIdleTime p) v (_connectionQue p) (_connectionCnt p).

(** The queue and the counter change together or one at a time. *)
Definition set_que (q : list Connection) (cnt : Z) (p : ConnectionPool) : ConnectionPool :=
  mkPool (_ip p) (_port p) (_username p) (_password p) (_dbname p)
    (_initSize p) (_maxSize p) (_maxIdleTime p) (_connectionTimeout p) q cnt.

(** [_connectionQue.push(c)]. *)
Definition que_push (c : Connection) (p : ConnectionPool) : ConnectionPool :=
  set_que (_connectionQue p ++ [c]) (_connectionCnt p) p.

(** [_connectionQue.pop()]. *)
Definition que_pop (p : ConnectionPool) : ConnectionPool :=
  set_que (tl (_connectionQue p)) (_connectionCnt p) p.

(** [_connectionCnt++]. *)
Definition cnt_incr (p : ConnectionPool) : ConnectionPool :=
  set_que (_connectionQue p) (_connectionCnt p + 1) p.

(** ** [ConnectionPool::loadConfigFile] *)

(** The chain of comparisons on [key]. *)
Definition store (key value : string) (p : ConnectionPool) : ConnectionPool :=
  if String.eqb key "ip" then set_ip value p
  else if String.eqb key "port" then set_port (Str.atoi value) p
  else if String.eqb key "username" then set_username value p
  else if String.eqb key "password" then set_password value p
  else if String.eqb key "dbname" then set_dbname value p
  else if String.eqb key "initSize" then set_initSize (Str.atoi value) p
  else if String.eqb key "maxSize" then set_maxSize (Str.atoi value) p
  else if String.eqb key "maxIdleTime" then set_maxIdleTime (Str.atoi value) p
  else if String.eqb key "connectionTimeOut" then set_connectionTimeout (Str.atoi value) p
  else p.

(** The body of the [while] loop once [str] holds the line. *)
Definition parse_line (str : string) (p : ConnectionPool) : ConnectionPool :=
  let idx := Str.find "="%char 0 str in
  if Z.eqb idx (-1) then p
  else
    let endidx := Str.find Str.newline idx str in
    let key := Str.substr str 0 idx in
    let value := Str.substr str (idx + 1) (endidx - idx - 1) in
    store key value p.

(** [while (!feof(pf)) { ... }], followed for [fuel] turns: the pool object
    when the loop has ended by then, nothing when it has not. *)
Fixpoint read_lines (fuel : nat) (pf : Stdio.FILE) (p : ConnectionPool)
  : option ConnectionPool :=
  match fuel with
  | O => None
  | S fuel' =>
      if Stdio.feof pf then Some p
      else
        let (line, pf') := Stdio.fgets 1024 pf in
        read_lines fuel' pf' (parse_line (Str.of_c_str line) p)
  end.

(** The pool object the loop ends with.  On a device that reads without
    error every turn that does not reach the end of the file takes at
    least one character off the stream, so the loop has ended within
    [String.length (rest pf) + 2] turns ([ConfigFacts.read_lines_ends]). *)
Definition read_all (pf : Stdio.FILE) (p : ConnectionPool) : ConnectionPool :=
  match read_lines (String.length (Stdio.rest pf) + 2) pf p with
  | Some p' => p'
  | None => p
  end.

(** [fopen("mysql.ini", "r")]: the file's contents when it is there and
    reads without error, or nothing when it cannot be opened. *)
Definition fopen (mysql_ini : option string) : option Stdio.FILE :=
  option_map (fun s => Stdio.mkFILE s false) mysql_ini.

(** [loadConfigFile] on any stream, followed for [turns] turns of its loop:
    what it returns and leaves, or nothing when it has not returned by
    then. *)
Definition loadConfigFile_within (turns : nat) (pf : option Stdio.FILE) (p : ConnectionPool)
  : option (bool * ConnectionPool * list event) :=
  match pf with
  | None => Some (false, p, [LOG "mysql.ini file is not exist!"])
  | Some pf => option_map (fun p' => (true, p', [])) (read_lines turns pf p)
  end.

(** [ConnectionPool::loadConfigFile] on a file that reads without error. *)
Definition loadConfigFile (mysql_ini : option string) (p : ConnectionPool)
  : bool * ConnectionPool * list event :=
  match fopen mysql_ini with
  | None => (false, p, [LOG "mysql.ini file is not exist!"])
  | Some pf => (true, read_all pf p, [])
  end.

(** ** The critical sections of the pool *)

(** How a member function leaves its critical section: it goes to sleep on
    the condition variable [cv], it steps outside what C++ defines, or it
    gets to the end with a value, the pool as it leaves it, and the events
    it caused, oldest first. *)
Inductive outcome (A : Type) :=
| blocked
| undefined
| done (a : A) (p : ConnectionPool) (ev : list event).
Arguments blocked {A}.
Arguments undefined {A}.
Arguments done {A} a p ev.

(** What the world answers when the pool creates a connection: whether
    [connect] succeeds, and the clock that [refreshAliveTime] reads. *)
Record creation := mkCreation { connect_ok : bool; clock_at : Z }.

(** [new Connection(); p->connect(...); p->refreshAliveTime();]: the result
    of [connect] is not looked at. *)
Definition create (id : nat) (w : creation) : Connection :=
  refreshAliveTime (clock_at w) (connect (connect_ok w) (new_Connection id)).

(** [for (int i = 0; i < _initSize; ++i)]: [n] turns are left and the next
    one is turn [i]. *)
Fixpoint warm_up (n i : nat) (world : nat -> creation) (p : ConnectionPool) : ConnectionPool :=
  match n with
  | O => p
  | S n' => warm_up n' (S i) world (cnt_incr (que_push (create i (world i)) p))
  end.

(** [ConnectionPool::ConnectionPool()]. *)
Definition ConnectionPool_ctor (mysql_ini : option string) (world : nat -> creation)
  : ConnectionPool * list event :=
  let '(ok, p, ev) := loadConfigFile mysql_ini static_pool in
  if negb ok then (p, ev)
  else (warm_up (Z.to_nat (_initSize p)) 0 world p,
        ev ++ [thread_detach producer; thread_detach scanner]).

(** One turn of the [for (;;)] of [ConnectionPool::produceConnectionTask],
    entered with the mutex held. *)
Definition produceConnectionTask (id : nat) (w : creation) (p : ConnectionPool) : outcome unit :=
  match _connectionQue p with
  | _ :: _ => blocked
  | [] =>
      let p' := if _connectionCnt p <? _maxSize p
                then cnt_incr (que_push (create id w) p)
                else p in
      done tt p' [notify_all]
  end.

(** [shared_ptr<Connection>]: null, or owning a connection. *)
Inductive shared_ptr := nullptr | sp (pcon : Connection).

Inductive cv_status := no_timeout | timeout.

Definition is_timeout (st : cv_status) : bool :=
  match st with timeout => true | no_timeout => false end.

(** [ConnectionPool::getConnection] from the test of its [while] on: with
    an empty queue the caller waits, otherwise it takes the front. *)
Definition getConnection_loop (p : ConnectionPool) : outcome shared_ptr :=
  match _connectionQue p with
  | [] => blocked
  | front :: _ => done (sp front) (que_pop p) [notify_all]
  end.

(** The line that [getConnection] logs when it gives up. *)
Definition timeout_message : string := "获取空闲连接超时了...获取连接失败!".

(** [getConnection] as it comes back from [cv.wait_for] with status [st],
    holding the mutex again, [p] being the pool as the other threads left
    it. *)
Definition getConnection_wake (st : cv_status) (p : ConnectionPool) : outcome shared_ptr :=
  match st with
  | timeout =>
      match _connectionQue p with
      | [] => done nullptr p [LOG timeout_message]
      | _ :: _ => getConnection_loop p
      end
  | no_timeout => getConnection_loop p
  end.

(** A whole call: the returns of [cv.wait_for] it lives through, in order,
    each with the pool it finds. *)
Fixpoint getConnection_waits (o : outcome shared_ptr) (ws : list (cv_status * ConnectionPool))
  : outcome shared_ptr :=
  match o, ws with
  | blocked, (st, p') :: ws' => getConnection_waits (getConnection_wake st p') ws'
  | _, _ => o
  end.

Definition getConnection (p : ConnectionPool) (ws : list (cv_status * ConnectionPool))
  : outcome shared_ptr :=
  getConnection_waits (getConnection_loop p) ws.

(** The deleter given to the [shared_ptr]:
    [[&](Connection *pcon) { lock; pcon->refreshAliveTime(); _connectionQue.push(pcon); }]. *)
Definition deleter (clock : Z) (pcon : Connection) (p : ConnectionPool)
  : ConnectionPool * list event :=
  (que_push (refreshAliveTime clock pcon) p, []).

(** The [while (_connectionCnt > _initSize)] of one cycle of
    [ConnectionPool::scannerConnectionTask], on the queue [q] and the
    counter [cnt]: a turn pops the front, decrements the counter and
    deletes the connection, or breaks.  [front()] of an empty [std::queue]
    is undefined.  The clock is read once for the cycle, and
    [_maxIdleTime * 1000] is a product of two [int]. *)
Fixpoint scanner_loop (clock initSize maxIdleTime : Z) (q : list Connection) (cnt : Z)
  : option (list Connection * Z * list event) :=
  if cnt >? initSize then
    match q with
    | [] => None
    | p :: q' =>
        if getAliveeTime clock p >=? to_int (maxIdleTime * 1000) then
          match scanner_loop clock initSize maxIdleTime q' (cnt - 1) with
          | Some (q'', cnt'', ev) => Some (q'', cnt'', delete p :: ev)
          | None => None
          end
        else Some (q, cnt, [])
    end
  else Some (q, cnt, []).

(** One cycle of [scannerConnectionTask], after the sleep. *)
Definition scannerConnectionTask (clock : Z) (p : ConnectionPool) : outcome unit :=
  match scanner_loop clock (_initSize p) (_maxIdleTime p) (_connectionQue p) (_connectionCnt p) with
  | Some (q, cnt, ev) => done tt (set_que q cnt p) ev
  | None => undefined
  end.

(** ** The pool among its threads *)

(** The pool object, the connections that callers hold through a
    [shared_ptr], and everything the pool has done to its environment so
    far. *)
Record System := mkSystem {
  pool : ConnectionPool;
  handles : list Connection;
  trace : list event
}.

(** A process starts by constructing the pool. *)
Definition boot (mysql_ini : option string) (world : nat -> creation) : System :=
  let (p, ev) := ConnectionPool_ctor mysql_ini world in mkSystem p [] ev.

(** The critical sections that the threads of the process can run, each
    with what the world contributes to it. *)
Inductive action :=
| produce (id : nat) (w : creation)
| acquire (wake : option cv_status)
| release (clock : Z) (pcon : Connection)
| scan (clock : Z).

Definition task_eqb (t u : task) : bool :=
  match t, u with
  | producer, producer | scanner, scanner => true
  | _, _ => false
  end.

(** A task runs once the constructor has detached its thread. *)
Definition started (t : task) (s : System) : bool :=
  existsb (fun e => match e with thread_detach u => task_eqb t u | _ => false end) (trace s).

Definition Connection_eqb (c d : Connection) : bool :=
  (Nat.eqb (conn_id c) (conn_id d) && Bool.eqb (conn_open c) (conn_open d)
   && Z.eqb (_alivetime c) (_alivetime d))%bool.

(** The last owner of [pcon] lets go of it. *)
Fixpoint drop_handle (pcon : Connection) (hs : list Connection) : option (list Connection) :=
  match hs with
  | [] => None
  | h :: hs' =>
      if Connection_eqb pcon h then Some hs'
      else option_map (cons h) (drop_handle pcon hs')
  end.

Definition hold (r : shared_ptr) (hs : list Connection) : list Connection :=
  match r with
  | nullptr => hs
  | sp pcon => pcon :: hs
  end.

(** One critical section run to its end; nothing when the thread does not
    exist, sleeps, or leaves defined behaviour. *)
Definition fire (a : action) (s : System) : option System :=
  match a with
  | produce id w =>
      if started producer s then
        match produceConnectionTask id w (pool s) with
        | done _ p ev => Some (mkSystem p (handles s) (trace s ++ ev))
        | _ => None
        end
      else None
  | acquire wake =>
      match match wake with
            | None => getConnection_loop (pool s)
            | Some st => getConnection_wake st (pool s)
            end with
      | done r p ev => Some (mkSystem p (hold r (handles s)) (trace s ++ ev))
      | _ => None
      end
  | release clock pcon =>
      match drop_handle pcon (handles s) with
      | Some hs =>
          let (p, ev) := deleter clock pcon (pool s) in
          Some (mkSystem p hs (trace s ++ ev))
      | None => None
      end
  | scan clock =>
      if started scanner s then
        match scannerConnectionTask clock (pool s) with
        | done _ p ev => Some (mkSystem p (handles s) (trace s ++ ev))
        | _ => None
        end
      else None
  end.

Fixpoint run (acts : list action) (s : System) : option System :=
  match acts with
  | [] => Some s
  | a :: acts' =>
      match fire a s with
      | Some s' => run acts' s'
      | None => None
      end
  end.

(** The states a process can be in: those some schedule leads to. *)
Definition reachable (s0 s : System) : Prop := exists acts, run acts s0 = Some s.

Definition notifications (ev : list event) : nat :=
  List.length (filter event_is_notify ev).

(** ** The specification's side *)

(** A configuration file written line by line: an entry [key=value], or a
    line of some other text. *)
Inductive entry :=
| kv (key value : string)
| other (text : string).

Definition nl : string := String Str.newline EmptyString.

Definition entry_line (e : entry) : string :=
  match e with
  | kv key value => (key ++ "=" ++ value ++ nl)%string
  | other text => (text ++ nl)%string
  end.

Fixpoint file_of (es : list entry) : string :=
  match es with
  | [] => EmptyString
  | e :: es' => (entry_line e ++ file_of es')%string
  end.

(** The line is what it looks like: the key ends at the first ['='], the
    value at the newline, and other text has no ['='] at all. *)
Definition entry_shaped (e : entry) : bool :=
  match e with
  | kv key value =>
      (negb (Str.mem "="%char key) && negb (Str.mem Str.newline key)
       && negb (Str.mem Str.newline value))%bool
  | other text => (negb (Str.mem "="%char text) && negb (Str.mem Str.newline text))%bool
  end.

(** An entry fits [char line[1024]] with its newline and holds no NUL. *)
Definition entry_fits (e : entry) : bool :=
  match e with
  | kv _ _ =>
      (Nat.leb (String.length (entry_line e)) 1023 && negb (Str.mem Str.nul (entry_line e)))%bool
  | other _ => true
  end.

Fixpoint replicate (n : nat) (c : ascii) : string :=
  match n with
  | O => EmptyString
  | S n' => String c (replicate n' c)
  end.

(** What reading the line is to do to the pool object: an entry is stored
    under its key, other text is passed over. *)
Definition entry_effect (p : ConnectionPool) (e : entry) : ConnectionPool :=
  match e with
  | kv key value => store key value p
  | other _ => p
  end.

(** The Reaper's cycle in the words of the spec: while the live count is
    above [initSize] and the head of the queue has been idle for at least
    the threshold, pop it, close it, decrement the count; stop at the first
    head that has not been idle long enough. *)
Fixpoint reaper_cycle (clock initSize maxIdleTime : Z) (q : list Connection) (cnt : Z)
  : list Connection * Z * list event :=
  match q with
  | head :: q' =>
      if ((cnt >? initSize) && (getAliveeTime clock head >=? maxIdleTime * 1000))%bool then
        let '(q'', cnt'', ev) := reaper_cycle clock initSize maxIdleTime q' (cnt - 1) in
        (q'', cnt'', delete head :: ev)
      else (q, cnt, [])
  | [] => (q, cnt, [])
  end.

(** A value too long for the line buffer, and one with a NUL inside. *)
Definition long_value : string := replicate 1030 "a"%char.
Definition nul_value : string := String "a"%char (String Str.nul (String "b"%char EmptyString)).

(** The pool object once the configuration [mysql_ini] has been read. *)
Definition loaded (mysql_ini : string) : ConnectionPool :=
  snd (fst (loadConfigFile (Some mysql_ini) static_pool)).

(** The state of a process whose constructor found no configuration: the
    object is as [static] storage left it, nobody holds a connection, and no
    thread has been started. *)
Definition never_started (s : System) : Prop :=
  pool s = static_pool /\ handles s = []
  /\ Forall (fun e => event_is_thread e = false) (trace s).

(** The bounded-size property of a state. *)
Definition bounded (s : System) : Prop :=
  _initSize (pool s) <= _connectionCnt (pool s) <= _maxSize (pool s).

(** ** Concrete processes, for the examples *)

(** A configuration file as the repository expects it. *)
Definition mysql_ini : string :=
  "ip=127.0.0.1
port=3306
username=root
password=123456
dbname=chat
initSize=1
maxSize=2
maxIdleTime=60
connectionTimeOut=100
".

(** A configuration file whose floor is above its ceiling. *)
Definition mysql_ini_floor_above_ceiling : string :=
  "initSize=2
maxSize=1
".

(** A world in which every [connect] succeeds at clock 0. *)
Definition calm : nat -> creation := fun _ => mkCreation true 0.

Definition started_pool : System := boot (Some mysql_ini) calm.

Definition misconfigured_pool : System := boot (Some mysql_ini_floor_above_ceiling) calm.

Definition unconfigured_pool : System := boot None calm.

(** Two callers take a connection each, the producer having made the
    second one (whose [connect] failed) in between. *)
Definition both_taken : list action :=
  [acquire None; produce 7 (mkCreation false 9); acquire None].

(** The pool with both its connections checked out. *)
Definition exhausted_pool : ConnectionPool :=
  mkPool "127.0.0.1" 3306 "root" "123456" "chat" 1 2 60 100 [] 2.

(** The process once [both_taken] has run. *)
Definition both_held : System :=
  mkSystem exhausted_pool
    [mkConnection 7 false 9; mkConnection 0 true 0]
    [thread_detach producer; thread_detach scanner; notify_all; notify_all; notify_all].

(** A caller has just released connection 0 at clock 50 into the
    exhausted pool, and a waiting caller has then taken it at the expiry of
    its wait. *)
Definition released : System :=
  mkSystem (set_que [mkConnection 0 true 50] 2 exhausted_pool) [] [].

Definition waited : System :=
  mkSystem (set_que [] 2 exhausted_pool) [mkConnection 0 true 50] [notify_all].

(** The pool with its queue empty and room for one more connection. *)
Definition drained_pool : ConnectionPool :=
  mkPool "127.0.0.1" 3306 "root" "123456" "chat" 1 2 60 100 [] 1.

(** ** Further notions, for the properties beyond the claims *)


(** The scanner's test on the connection at the front of the queue:
    [p->getAliveeTime() >= (_maxIdleTime * 1000)], the product being the
    [int] that the multiplication leaves. *)
Definition expired (clock maxIdleTime : Z) (c : Connection) : bool :=
  getAliveeTime clock c >=? to_int (maxIdleTime * 1000).

(** The connections the pool has made and not deleted: the idle ones, then
    the ones callers hold. *)
Definition live (s : System) : list Connection := _connectionQue (pool s) ++ handles s.

Definition live_ids (s : System) : list nat := map conn_id (live s).

(** [new Connection()] returns an object that is none of the live ones. *)
Definition fresh_for (a : action) (s : System) : Prop :=
  match a with
  | produce id _ => ~ In id (live_ids s)
  | _ => True
  end.

Fixpoint fresh_schedule (acts : list action) (s : System) : Prop :=
  match acts with
  | [] => True
  | a :: acts' =>
      fresh_for a s
      /\ match fire a s with
         | Some s' => fresh_schedule acts' s'
         | None => True
         end
  end.

(** The idle-start times of the queue, front first. *)
Definition stamps (q : list Connection) : list Z := map _alivetime q.

(** The clock that a critical section reads when it stamps a connection. *)
Definition stamp_clock (a : action) : option Z :=
  match a with
  | produce _ w => Some (clock_at w)
  | release clock _ => Some clock
  | _ => None
  end.

(** The clock does not run backwards along a schedule that starts at
    time [t]. *)
Fixpoint monotone_from (t : Z) (acts : list action) : Prop :=
  match acts with
  | [] => True
  | a :: acts' =>
      match stamp_clock a with
      | Some c => t <= c /\ monotone_from c acts'
      | None => monotone_from t acts'
      end
  end.

(** The statuses with which [cv.wait_for(lock, chrono::milliseconds(ms))]
    can return.  With nothing to wait for ([ms <= 0]) the deadline has
    passed when the wait begins: the wait is over at once and its status
    is [timeout]. *)
Definition wait_for_returns (ms : Z) (st : cv_status) : bool :=
  ((0 <? ms) || is_timeout st)%bool.

(** The text is whole lines: it is empty or its last character is a
    newline. *)
Fixpoint ends_nl (s : string) : bool :=
  match s with
  | EmptyString => true
  | String c EmptyString => Ascii.eqb c Str.newline
  | String _ s' => ends_nl s'
  end.

(** The pool object once [loadConfigFile] has read [content] into [p]. *)
Definition read_file (content : string) (p : ConnectionPool) : ConnectionPool :=
  snd (fst (loadConfigFile (Some content) p)).

(** * Facts *)

(** ** Strings *)

Module StrFacts.
Import Str.

Lemma length_app (s t : string) :
  String.length (s ++ t)%string = (String.length s + String.length t)%nat.
Proof. induction s as [|c s IH]; simpl; [reflexivity | now rewrite IH]. Qed.

Lemma drop_app (s t : string) : drop (String.length s) (s ++ t)%string = t.
Proof. induction s as [|c s IH]; simpl; [now destruct t | exact IH]. Qed.

Lemma take_app (s t : string) : take (String.length s) (s ++ t)%string = s.
Proof. induction s as [|c s IH]; simpl; [now destruct t | now rewrite IH]. Qed.

Lemma mem_app (ch : ascii) (s t : string) :
  mem ch (s ++ t)%string = (mem ch s || mem ch t)%bool.
Proof.
  induction s as [|c s IH]; simpl; [reflexivity|].
  rewrite IH. now rewrite orb_assoc.
Qed.

Lemma find_from_none (ch : ascii) (s : string) (i : Z) :
  mem ch s = false -> find_from ch s i = -1.
Proof.
  revert i. induction s as [|c s IH]; simpl; intros i H; [reflexivity|].
  apply orb_false_iff in H as [Hc Hs]. rewrite Hc. now apply IH.
Qed.

Lemma find_from_app (ch : ascii) (s t : string) (i : Z) :
  mem ch s = false ->
  find_from ch (s ++ String ch t)%string i = i + Z.of_nat (String.length s).
Proof.
  revert i. induction s as [|c s IH]; simpl; intros i H.
  - rewrite Ascii.eqb_refl. lia.
  - apply orb_false_iff in H as [Hc Hs]. rewrite Hc, IH by assumption. lia.
Qed.

Lemma of_c_str_id (s : string) : mem nul s = false -> of_c_str s = s.
Proof.
  induction s as [|c s IH]; simpl; intros H; [reflexivity|].
  apply orb_false_iff in H as [Hc Hs]. rewrite Hc. now rewrite IH.
Qed.

Lemma mem_of_c_str (ch : ascii) (s : string) :
  mem ch s = false -> mem ch (of_c_str s) = false.
Proof.
  induction s as [|c s IH]; simpl; intros H; [reflexivity|].
  apply orb_false_iff in H as [Hc Hs].
  destruct (Ascii.eqb c nul); simpl; [reflexivity|].
  rewrite Hc. now apply IH.
Qed.

Lemma mem_take (ch : ascii) (n : nat) (s : string) :
  mem ch s = false -> mem ch (take n s) = false.
Proof.
  revert n. induction s as [|c s IH]; intros [|n] H; simpl; try reflexivity.
  simpl in H. apply orb_false_iff in H as [Hc Hs]. rewrite Hc. now apply IH.
Qed.

Lemma mem_drop (ch : ascii) (n : nat) (s : string) :
  mem ch s = false -> mem ch (drop n s) = false.
Proof.
  revert n. induction s as [|c s IH]; intros [|n] H; simpl; try reflexivity; try exact H.
  simpl in H. apply orb_false_iff in H as [Hc Hs]. now apply IH.
Qed.

Lemma length_drop (n : nat) (s : string) :
  String.length (drop n s) = (String.length s - n)%nat.
Proof.
  revert n. induction s as [|c s IH]; intros [|n]; simpl; try reflexivity. apply IH.
Qed.

End StrFacts.

(** ** Reading the configuration *)

Module ConfigFacts.
Import Str Stdio StrFacts.

(** [fgets] on a stream that still holds a whole line [t]. *)
Lemma fgets_chars_line (bad : bool) (room : nat) (t r : string) :
  mem newline t = false ->
  fgets_chars bad room (t ++ String newline r)%string =
  if Nat.ltb (String.length t) room
  then ((t ++ nl)%string, on_device r false bad)
  else (take room t, on_device (drop room t ++ String newline r)%string false bad).
Proof.
  revert t. induction room as [|room IH]; intros t H.
  - simpl. now destruct t.
  - destruct t as [|c t]; simpl.
    + reflexivity.
    + simpl in H. apply orb_false_iff in H as [Hc Ht].
      rewrite Hc, IH by assumption.
      change (Nat.ltb (S (String.length t)) (S room)) with (Nat.ltb (String.length t) room).
      now destruct (Nat.ltb (String.length t) room).
Qed.

(** A call of [fgets] either finds the stream exhausted, and then sets the
    end-of-file indicator unless the device fails, or takes characters off
    it. *)
Lemma fgets_chars_shrinks (bad : bool) (room : nat) (s l : string) (pf' : FILE) :
  fgets_chars bad (S room) s = (l, pf') ->
  (s = EmptyString /\ l = EmptyString /\ pf' = on_device EmptyString (negb bad) bad)
  \/ ((String.length (rest pf') < String.length s)%nat /\ failing pf' = bad).
Proof.
  revert room l pf'. induction s as [|c s IH]; intros room l pf' H.
  - left. simpl in H. now injection H as <- <-.
  - right. simpl in H. destruct (Ascii.eqb c newline).
    + injection H as <- <-. simpl. split; [lia | reflexivity].
    + destruct room as [|room].
      * simpl in H. injection H as <- <-. simpl. split; [lia | reflexivity].
      * destruct (fgets_chars bad (S room) s) as [l1 pf1] eqn:E.
        injection H as <- <-.
        destruct (IH _ _ _ E) as [(-> & _ & ->) | [Hlt Hf]]; simpl in *;
          (split; [lia | assumption || reflexivity]).
Qed.

(** No call of [fgets] on a failing device sets the end-of-file
    indicator. *)
Lemma fgets_chars_failing (room : nat) (s : string) :
  eof (snd (fgets_chars true room s)) = false
  /\ failing (snd (fgets_chars true room s)) = true.
Proof.
  revert s. induction room as [|room IH]; intros s; cbn [fgets_chars]; [now split|].
  destruct s as [|c s]; [now split|].
  destruct (Ascii.eqb c newline); [now split|].
  specialize (IH s). destruct (fgets_chars true room s) as [l pf']. exact IH.
Qed.

Lemma read_lines_eof (fuel : nat) (pf : FILE) (p : ConnectionPool) :
  feof pf = true -> read_lines (S fuel) pf p = Some p.
Proof. intros H. simpl. now rewrite H. Qed.

(** On a device that reads without error, from
    [String.length (rest pf) + 2] turns on more turns change nothing. *)
Lemma read_lines_fuel (n m : nat) (pf : FILE) (p : ConnectionPool) :
  failing pf = false ->
  (String.length (rest pf) + 2 <= n)%nat ->
  (String.length (rest pf) + 2 <= m)%nat ->
  read_lines n pf p = read_lines m pf p.
Proof.
  revert m pf p. induction n as [|n IH]; intros m pf p Hf Hn Hm; [lia|].
  destruct m as [|m]; [lia|].
  simpl. destruct (feof pf); [reflexivity|].
  unfold fgets. simpl Nat.pred. rewrite Hf.
  destruct (fgets_chars false 1023 (rest pf)) as [l pf'] eqn:E.
  destruct (fgets_chars_shrinks _ _ _ _ _ E) as [(_ & _ & ->) | [Hlt Hf']].
  - destruct n as [|n]; [lia|]. destruct m as [|m]; [lia|].
    now rewrite !read_lines_eof.
  - apply IH; [assumption | lia | lia].
Qed.

(** And within those turns the loop has ended. *)
Lemma read_lines_ends (n : nat) (pf : FILE) (p : ConnectionPool) :
  failing pf = false ->
  (String.length (rest pf) + 2 <= n)%nat ->
  read_lines n pf p = Some (read_all pf p).
Proof.
  intros Hf Hn.
  assert (E : forall k (pf : FILE) (p : ConnectionPool),
             failing pf = false -> (String.length (rest pf) + 2 <= k)%nat ->
             read_lines k pf p <> None).
  { induction k as [|k IH]; intros pf0 p0 Hf0 Hk; [lia|].
    simpl. destruct (feof pf0); [discriminate|].
    unfold fgets. simpl Nat.pred. rewrite Hf0.
    destruct (fgets_chars false 1023 (rest pf0)) as [l pf'] eqn:E.
    destruct (fgets_chars_shrinks _ _ _ _ _ E) as [(_ & _ & ->) | [Hlt Hf']].
    - destruct k as [|k]; [lia|]. rewrite read_lines_eof by reflexivity. discriminate.
    - apply IH; [assumption | lia]. }
  unfold read_all.
  rewrite (read_lines_fuel n (String.length (rest pf) + 2)) by (assumption || lia).
  specialize (E (String.length (rest pf) + 2)%nat pf p Hf (Nat.le_refl _)).
  now destruct (read_lines (String.length (rest pf) + 2) pf p).
Qed.

(** On a failing device the loop does not end, however many turns it is
    given. *)
Lemma read_lines_failing (n : nat) :
  forall (pf : FILE) (p : ConnectionPool),
    failing pf = true -> eof pf = false -> read_lines n pf p = None.
Proof.
  induction n as [|n IH]; intros pf p Hf He; [reflexivity|].
  simpl. unfold feof. rewrite He. unfold fgets. rewrite Hf.
  destruct (fgets_chars_failing (Nat.pred 1024) (rest pf)) as [He' Hf'].
  destruct (fgets_chars true (Nat.pred 1024) (rest pf)) as [l pf'].
  now apply IH.
Qed.

Lemma read_lines_S (fuel : nat) (pf : FILE) (p : ConnectionPool) :
  read_lines (S fuel) pf p =
  if feof pf then Some p
  else let (line, pf') := fgets 1024 pf in read_lines fuel pf' (parse_line (of_c_str line) p).
Proof. reflexivity. Qed.

Lemma read_all_turn (pf : FILE) (p : ConnectionPool) :
  failing pf = false ->
  read_all pf p =
  if feof pf then p
  else let (line, pf') := fgets 1024 pf in read_all pf' (parse_line (of_c_str line) p).
Proof.
  intros Hf.
  pose proof (read_lines_ends (S (String.length (rest pf) + 1)) pf p Hf) as E.
  rewrite read_lines_S in E.
  destruct (feof pf).
  - symmetry. assert (H : Some p = Some (read_all pf p)) by (apply E; lia).
    now injection H.
  - unfold fgets in *. simpl Nat.pred in *. rewrite Hf in *.
    destruct (fgets_chars false 1023 (rest pf)) as [l pf'] eqn:F.
    assert (H : read_lines (String.length (rest pf) + 1) pf' (parse_line (of_c_str l) p)
                = Some (read_all pf p)) by (apply E; lia).
    destruct (fgets_chars_shrinks _ _ _ _ _ F) as [(Hs & _ & ->) | [Hlt Hf']].
    + rewrite Hs in H. simpl in H. now injection H.
    + rewrite (read_lines_ends _ pf') in H by (assumption || lia). now injection H.
Qed.

(** A line without ['='] is passed over. *)
Lemma parse_line_skip (str : string) (p : ConnectionPool) :
  mem "="%char str = false -> parse_line str p = p.
Proof.
  intros H. unfold parse_line, find. simpl.
  now rewrite find_from_none.
Qed.

Lemma to_size_t_small (z : Z) : 0 <= z < 2 ^ 64 -> to_size_t z = z.
Proof. intros H. unfold to_size_t. now apply Z.mod_small. Qed.

(** A line [key=value] followed by its newline is split where the claim
    says. *)
Lemma parse_line_kv (key value : string) (p : ConnectionPool) :
  mem "="%char key = false ->
  mem newline value = false ->
  (String.length (key ++ "=" ++ value ++ nl)%string <= 1023)%nat ->
  parse_line (key ++ "=" ++ value ++ nl)%string p = store key value p.
Proof.
  intros Hk Hv Hlen.
  set (str := (key ++ "=" ++ value ++ nl)%string) in *.
  assert (Lstr : String.length str = (String.length key + S (String.length value + 1))%nat).
  { unfold str. rewrite length_app. simpl. rewrite length_app. reflexivity. }
  unfold parse_line.
  assert (Hidx : find "="%char 0 str = Z.of_nat (String.length key)).
  { unfold find, str. simpl. now rewrite find_from_app. }
  rewrite Hidx.
  destruct (Z.eqb_spec (Z.of_nat (String.length key)) (-1)) as [E|_]; [lia|].
  assert (Hend : find newline (Z.of_nat (String.length key)) str
                 = Z.of_nat (String.length key) + 1 + Z.of_nat (String.length value)).
  { unfold find. rewrite Nat2Z.id. unfold str. rewrite drop_app.
    simpl. unfold nl. rewrite find_from_app by assumption. lia. }
  rewrite Hend.
  assert (P64 : 1024 < 2 ^ 64) by reflexivity.
  f_equal.
  - unfold substr. rewrite to_size_t_small by lia.
    rewrite Z.min_l by lia. simpl. rewrite Nat2Z.id. apply take_app.
  - unfold substr.
    replace (Z.of_nat (String.length key) + 1 + Z.of_nat (String.length value)
             - Z.of_nat (String.length key) - 1) with (Z.of_nat (String.length value)) by lia.
    rewrite to_size_t_small by lia.
    rewrite Z.min_l by lia. rewrite Nat2Z.id.
    replace (Z.to_nat (Z.of_nat (String.length key) + 1)) with (S (String.length key)) by lia.
    unfold str.
    change (drop (S (String.length key)) (key ++ "=" ++ value ++ nl)%string)
      with (drop (S (String.length key)) (key ++ String "="%char (value ++ nl))%string).
    assert (D : forall k t, drop (S (String.length k)) (k ++ String "="%char t)%string = t).
    { induction k as [|c k IH]; intros t; simpl; [now destruct t | apply IH]. }
    rewrite D. apply take_app.
Qed.

End ConfigFacts.

Module LoadFacts.
Import Str Stdio StrFacts ConfigFacts.

Lemma app_assoc_s (a b c : string) : ((a ++ b) ++ c)%string = (a ++ (b ++ c))%string.
Proof. induction a as [|x a IH]; simpl; [reflexivity | now rewrite IH]. Qed.

Lemma read_all_end (p : ConnectionPool) : read_all (mkFILE EmptyString false) p = p.
Proof. reflexivity. Qed.

(** Text without ['='] goes by, however many calls of [fgets] it takes. *)
Lemma read_all_other (n : nat) :
  forall (t r : string) (p : ConnectionPool),
    (String.length t < n)%nat ->
    mem "="%char t = false -> mem newline t = false ->
    read_all (mkFILE (t ++ String newline r)%string false) p = read_all (mkFILE r false) p.
Proof.
  induction n as [|n IH]; intros t r p Hn He Hnl; [lia|].
  rewrite read_all_turn by reflexivity. cbn [feof eof].
  unfold fgets. change (Nat.pred 1024) with 1023%nat. cbn [rest failing].
  rewrite fgets_chars_line by assumption.
  destruct (Nat.ltb_spec (String.length t) 1023) as [Hlt|Hge].
  - rewrite parse_line_skip; [reflexivity|].
    apply mem_of_c_str. rewrite mem_app, He. reflexivity.
  - rewrite parse_line_skip by (apply mem_of_c_str, mem_take, He).
    apply IH.
    + rewrite length_drop. lia.
    + now apply mem_drop.
    + now apply mem_drop.
Qed.

(** An entry that fits the buffer is read in one call and stored. *)
Lemma read_all_kv (key value r : string) (p : ConnectionPool) :
  entry_shaped (kv key value) = true -> entry_fits (kv key value) = true ->
  read_all (mkFILE (entry_line (kv key value) ++ r)%string false) p
  = read_all (mkFILE r false) (store key value p).
Proof.
  cbn [entry_shaped entry_fits entry_line]. intros Hs Hf.
  apply andb_true_iff in Hs as [Hs Hv]. apply andb_true_iff in Hs as [Hk Hkn].
  apply andb_true_iff in Hf as [Hlen Hnul].
  apply negb_true_iff in Hk, Hkn, Hv, Hnul. apply Nat.leb_le in Hlen.
  assert (E : (key ++ "=" ++ value ++ nl)%string = ((key ++ "=" ++ value) ++ nl)%string).
  { now rewrite !app_assoc_s. }
  assert (Ht : mem newline (key ++ "=" ++ value)%string = false).
  { rewrite mem_app, Hkn. simpl. exact Hv. }
  rewrite read_all_turn by reflexivity. cbn [feof eof].
  unfold fgets. change (Nat.pred 1024) with 1023%nat. cbn [rest failing].
  rewrite E, app_assoc_s. unfold nl at 1.
  change (String newline EmptyString ++ r)%string with (String newline r).
  rewrite fgets_chars_line by assumption.
  rewrite E, length_app in Hlen. change (String.length nl) with 1%nat in Hlen.
  destruct (Nat.ltb_spec (String.length (key ++ "=" ++ value)%string) 1023) as [Hlt|Hge]; [|lia].
  rewrite <- E. rewrite of_c_str_id by assumption.
  rewrite parse_line_kv; try assumption; [reflexivity|].
  rewrite E, length_app. change (String.length nl) with 1%nat. lia.
Qed.


End LoadFacts.

(** ** The critical sections, one by one *)

Module PoolFacts.

Lemma config_set_que (q : list Connection) (cnt : Z) (p : ConnectionPool) :
  config (set_que q cnt p) = config p.
Proof. reflexivity. Qed.

(** The warm-up loop pushes [n] connections and counts them. *)
Lemma warm_up_spec (n : nat) :
  forall (i : nat) (world : nat -> creation) (p : ConnectionPool),
    config (warm_up n i world p) = config p
    /\ _connectionCnt (warm_up n i world p) = _connectionCnt p + Z.of_nat n
    /\ _connectionQue (warm_up n i world p)
       = _connectionQue p ++ map (fun k => create k (world k)) (seq i n).
Proof.
  induction n as [|n IH]; intros i world p.
  - simpl. rewrite app_nil_r. repeat split. lia.
  - cbn [warm_up]. destruct (IH (S i) world (cnt_incr (que_push (create i (world i)) p)))
      as (Hc & Hn & Hq).
    rewrite Hc, Hn, Hq. repeat split.
    + simpl. lia.
    + simpl. now rewrite <- app_assoc.
Qed.

(** Where the threshold in milliseconds fits an [int], the scanner's loop
    is the Reaper's cycle of the spec wherever the cycle does not end on an
    empty queue with connections still in excess; there the loop calls
    [front()] on the empty queue. *)
Lemma scanner_loop_reaper (clock initSize maxIdleTime : Z) (q : list Connection) :
  to_int (maxIdleTime * 1000) = maxIdleTime * 1000 ->
  forall cnt : Z,
    scanner_loop clock initSize maxIdleTime q cnt =
    let '(q', cnt', ev) := reaper_cycle clock initSize maxIdleTime q cnt in
    match q' with
    | [] => if cnt' >? initSize then None else Some (q', cnt', ev)
    | _ :: _ => Some (q', cnt', ev)
    end.
Proof.
  intros Hfit. induction q as [|head q IH]; intros cnt.
  - simpl. now destruct (cnt >? initSize).
  - cbn [scanner_loop reaper_cycle]. rewrite Hfit.
    destruct (cnt >? initSize); simpl; [|reflexivity].
    destruct (getAliveeTime clock head >=? maxIdleTime * 1000); [|reflexivity].
    rewrite IH.
    destruct (reaper_cycle clock initSize maxIdleTime q (cnt - 1)) as [[q' cnt'] ev].
    destruct q' as [|c q']; [|reflexivity].
    now destruct (cnt' >? initSize).
Qed.

(** The cycle only lowers the counter, and never below [initSize] unless
    it was there already. *)
Lemma reaper_cycle_bounds (clock initSize maxIdleTime : Z) (q : list Connection) :
  forall (cnt : Z) (q' : list Connection) (cnt' : Z) (ev : list event),
    reaper_cycle clock initSize maxIdleTime q cnt = (q', cnt', ev) ->
    cnt' <= cnt /\ Z.min initSize cnt <= cnt'.
Proof.
  induction q as [|head q IH]; intros cnt q' cnt' ev H.
  - simpl in H. injection H as <- <- <-. lia.
  - cbn [reaper_cycle] in H.
    destruct (cnt >? initSize) eqn:E; simpl in H.
    + destruct (getAliveeTime clock head >=? maxIdleTime * 1000).
      * destruct (reaper_cycle clock initSize maxIdleTime q (cnt - 1)) as [[q1 cnt1] ev1] eqn:R.
        injection H as <- <- <-.
        apply IH in R. apply Z.gtb_lt in E. lia.
      * injection H as <- <- <-. lia.
    + injection H as <- <- <-. lia.
Qed.

Lemma scanner_loop_bounds (clock initSize maxIdleTime : Z) (q q' : list Connection)
      (cnt cnt' : Z) (ev : list event) :
  scanner_loop clock initSize maxIdleTime q cnt = Some (q', cnt', ev) ->
  cnt' <= cnt /\ Z.min initSize cnt <= cnt'.
Proof.
  revert cnt q' cnt' ev. induction q as [|head q IH]; intros cnt q' cnt' ev H;
    cbn [scanner_loop] in H.
  - destruct (Z.gtb_spec cnt initSize) as [Hgt|Hle]; [discriminate|].
    injection H as <- <- <-. lia.
  - destruct (Z.gtb_spec cnt initSize) as [Hgt|Hle].
    + destruct (getAliveeTime clock head >=? to_int (maxIdleTime * 1000)).
      * destruct (scanner_loop clock initSize maxIdleTime q (cnt - 1))
          as [[[q1 cnt1] ev1]|] eqn:E; [|discriminate].
        injection H as <- <- <-. apply IH in E. lia.
      * injection H as <- <- <-. lia.
    + injection H as <- <- <-. lia.
Qed.

(** What one critical section does to the counter and the
    configuration. *)
Lemma fire_frame (a : action) (s s' : System) :
  fire a s = Some s' ->
  config (pool s') = config (pool s)
  /\ match a with
     | produce _ _ =>
         _connectionCnt (pool s') = _connectionCnt (pool s)
         \/ (_connectionCnt (pool s) < _maxSize (pool s)
             /\ _connectionCnt (pool s') = _connectionCnt (pool s) + 1)
     | acquire _ | release _ _ => _connectionCnt (pool s') = _connectionCnt (pool s)
     | scan _ =>
         _connectionCnt (pool s') <= _connectionCnt (pool s)
         /\ Z.min (_initSize (pool s)) (_connectionCnt (pool s)) <= _connectionCnt (pool s')
     end.
Proof.
  destruct a as [id w | wake | clock pcon | clock]; cbn [fire].
  - destruct (started producer s); [|discriminate].
    unfold produceConnectionTask.
    destruct (_connectionQue (pool s)); [|discriminate].
    destruct (Z.ltb_spec (_connectionCnt (pool s)) (_maxSize (pool s))) as [Hlt|Hge];
      intros H; injection H as <-; cbn; auto.
  - assert (L : forall p r p' ev, getConnection_loop p = done r p' ev ->
                  config p' = config p /\ _connectionCnt p' = _connectionCnt p).
    { intros p r p' ev. unfold getConnection_loop.
      destruct (_connectionQue p); [discriminate|].
      intros H; injection H as <- <- <-. now split. }
    destruct wake as [[|]|]; cbn [getConnection_wake].
    + destruct (getConnection_loop (pool s)) eqn:E; try discriminate.
      intros H; injection H as <-. cbn [pool]. eapply L, E.
    + destruct (_connectionQue (pool s)).
      * intros H; injection H as <-. now split.
      * destruct (getConnection_loop (pool s)) eqn:E; try discriminate.
        intros H; injection H as <-. cbn [pool]. eapply L, E.
    + destruct (getConnection_loop (pool s)) eqn:E; try discriminate.
      intros H; injection H as <-. cbn [pool]. eapply L, E.
  - destruct (drop_handle pcon (handles s)); [|discriminate].
    cbn. intros H; injection H as <-. now split.
  - destruct (started scanner s); [|discriminate].
    unfold scannerConnectionTask.
    destruct (scanner_loop clock (_initSize (pool s)) (_maxIdleTime (pool s))
                (_connectionQue (pool s)) (_connectionCnt (pool s)))
      as [[[q cnt] ev]|] eqn:E; [|discriminate].
    intros H; injection H as <-. cbn. split; [reflexivity|].
    eapply scanner_loop_bounds, E.
Qed.

End PoolFacts.

(** * The claims *)

(** ** Bounded size *)

Module Bounded.
Import PoolFacts.

Lemma store_keeps_que (key value : string) (p : ConnectionPool) :
  _connectionQue (store key value p) = _connectionQue p
  /\ _connectionCnt (store key value p) = _connectionCnt p.
Proof.
  unfold store.
  repeat match goal with |- context [if ?b then _ else _] => destruct b end;
    now split.
Qed.

Lemma parse_line_keeps_que (str : string) (p : ConnectionPool) :
  _connectionQue (parse_line str p) = _connectionQue p
  /\ _connectionCnt (parse_line str p) = _connectionCnt p.
Proof.
  unfold parse_line. destruct (Z.eqb _ _); [now split | apply store_keeps_que].
Qed.

Lemma read_lines_keeps_que (fuel : nat) :
  forall (pf : Stdio.FILE) (p p' : ConnectionPool),
    read_lines fuel pf p = Some p' ->
    _connectionQue p' = _connectionQue p /\ _connectionCnt p' = _connectionCnt p.
Proof.
  induction fuel as [|fuel IH]; intros pf p p' H; [discriminate|].
  cbn [read_lines] in H. destruct (Stdio.feof pf).
  - injection H as <-. now split.
  - destruct (Stdio.fgets 1024 pf) as [line pf'].
    destruct (IH _ _ _ H) as [Hq Hc].
    destruct (parse_line_keeps_que (Str.of_c_str line) p) as [Hq' Hc'].
    split; congruence.
Qed.

Lemma read_all_keeps_que (pf : Stdio.FILE) (p : ConnectionPool) :
  _connectionQue (read_all pf p) = _connectionQue p
  /\ _connectionCnt (read_all pf p) = _connectionCnt p.
Proof.
  unfold read_all.
  destruct (read_lines (String.length (Stdio.rest pf) + 2) pf p) as [p'|] eqn:E.
  - eapply read_lines_keeps_que, E.
  - now split.
Qed.

(** The constructor leaves as many connections as it counted:
    [_initSize] of them, or none when [_initSize] is negative. *)
Lemma ctor_count (mysql_ini : option string) (world : nat -> creation) :
  let p := fst (ConnectionPool_ctor mysql_ini world) in
  _connectionCnt p = Z.max 0 (_initSize p)
  /\ Z.of_nat (List.length (_connectionQue p)) = _connectionCnt p.
Proof.
  unfold ConnectionPool_ctor, loadConfigFile, fopen.
  destruct mysql_ini as [content|]; cbn [option_map negb fst].
  - set (p0 := read_all _ static_pool).
    destruct (read_all_keeps_que (Stdio.mkFILE content false) static_pool) as [Hq Hc].
    fold p0 in Hq, Hc.
    destruct (warm_up_spec (Z.to_nat (_initSize p0)) 0 world p0) as (Hcfg & Hn & Hque).
    assert (Hi : _initSize (warm_up (Z.to_nat (_initSize p0)) 0 world p0) = _initSize p0).
    { unfold config in Hcfg. congruence. }
    rewrite Hi, Hn, Hque, Hq, Hc. cbn [static_pool _connectionQue _connectionCnt app].
    rewrite length_map, length_seq. lia.
  - simpl. lia.
Qed.

Lemma config_sizes (p q : ConnectionPool) :
  config p = config q -> _initSize p = _initSize q /\ _maxSize p = _maxSize q.
Proof. unfold config. intros H. inversion H. now split. Qed.

Lemma fire_bounded (a : action) (s s' : System) :
  fire a s = Some s' -> bounded s -> bounded s' /\ config (pool s') = config (pool s).
Proof.
  intros F B. destruct (fire_frame _ _ _ F) as [Hc Hn].
  split; [|exact Hc].
  destruct (config_sizes _ _ Hc) as [Hi Hm].
  unfold bounded in *. rewrite Hi, Hm.
  destruct a; lia.
Qed.

Lemma run_bounded (acts : list action) :
  forall s s' : System,
    run acts s = Some s' -> bounded s -> bounded s' /\ config (pool s') = config (pool s).
Proof.
  induction acts as [|a acts IH]; intros s s' R B.
  - injection R as <-. now split.
  - cbn [run] in R. destruct (fire a s) as [s1|] eqn:F; [|discriminate].
    destruct (fire_bounded _ _ _ F B) as [B1 C1].
    destruct (IH _ _ R B1) as [B' C']. split; congruence.
Qed.

Lemma boot_pool (mysql_ini : option string) (world : nat -> creation) :
  pool (boot mysql_ini world) = fst (ConnectionPool_ctor mysql_ini world).
Proof. unfold boot. now destruct (ConnectionPool_ctor mysql_ini world). Qed.

(** C1, as the code has it.  When the configuration that was loaded puts
    the floor [_initSize] at or below the ceiling [_maxSize], and the
    ceiling at or above zero, every state that the constructor and any
    interleaving of producer, scanner, [getConnection] and handle releases
    lead to keeps the configuration and has
    [_initSize <= _connectionCnt <= _maxSize]; the constructor itself
    counts [max 0 _initSize] connections and queues as many, a critical
    section that raises the counter raises it by one from below [_maxSize],
    and one that lowers it leaves it at or above [_initSize]. *)
Theorem bounded_size (mysql_ini : option string) (world : nat -> creation) (s : System) :
  _initSize (pool (boot mysql_ini world)) <= _maxSize (pool (boot mysql_ini world)) ->
  0 <= _maxSize (pool (boot mysql_ini world)) ->
  reachable (boot mysql_ini world) s ->
  _connectionCnt (pool (boot mysql_ini world))
    = Z.max 0 (_initSize (pool (boot mysql_ini world)))
  /\ Z.of_nat (List.length (_connectionQue (pool (boot mysql_ini world))))
     = _connectionCnt (pool (boot mysql_ini world))
  /\ config (pool s) = config (pool (boot mysql_ini world))
  /\ _initSize (pool s) <= _connectionCnt (pool s) <= _maxSize (pool s)
  /\ (forall (a : action) (s1 s2 : System),
         fire a s1 = Some s2 ->
         (_connectionCnt (pool s1) < _connectionCnt (pool s2) ->
          _connectionCnt (pool s1) < _maxSize (pool s1)
          /\ _connectionCnt (pool s2) = _connectionCnt (pool s1) + 1)
         /\ (_connectionCnt (pool s2) < _connectionCnt (pool s1) ->
             _initSize (pool s1) <= _connectionCnt (pool s2))).
Proof.
  intros Him Hm [acts R].
  destruct (ctor_count mysql_ini world) as [Hc Hq].
  rewrite <- boot_pool in Hc, Hq.
  assert (B : bounded (boot mysql_ini world)) by (unfold bounded; lia).
  destruct (run_bounded _ _ _ R B) as [B' C'].
  split; [assumption|]. split; [assumption|]. split; [assumption|].
  split; [apply B'|].
  intros a s1 s2 F. destruct (fire_frame _ _ _ F) as [_ Hn].
  destruct a; lia.
Qed.

(** The state in which two callers hold the pool's two connections
    satisfies the bounds, and the producer's turn on the way there raised
    the counter from 1, below the ceiling 2. *)
Lemma bounded_size_witness :
  (_initSize (pool both_held) <= _connectionCnt (pool both_held) <= _maxSize (pool both_held))
  /\ (_connectionCnt drained_pool < _maxSize drained_pool
      /\ _connectionCnt (set_que [mkConnection 7 true 5] 2 drained_pool)
         = _connectionCnt drained_pool + 1).
Proof.
  assert (R : reachable (boot (Some mysql_ini) calm) both_held).
  { exists both_taken. vm_compute. reflexivity. }
  assert (H1 : _initSize (pool (boot (Some mysql_ini) calm))
               <= _maxSize (pool (boot (Some mysql_ini) calm))).
  { vm_compute. discriminate. }
  assert (H2 : 0 <= _maxSize (pool (boot (Some mysql_ini) calm))).
  { vm_compute. discriminate. }
  split.
  - apply (bounded_size (Some mysql_ini) calm both_held H1 H2 R).
  - apply (proj1 (proj2 (proj2 (proj2 (proj2
             (bounded_size (Some mysql_ini) calm both_held H1 H2 R))))
             (produce 7 (mkCreation true 5))
             (mkSystem drained_pool [] [thread_detach producer])
             (mkSystem (set_que [mkConnection 7 true 5] 2 drained_pool) []
                [thread_detach producer; notify_all])
             eq_refl)).
    reflexivity.
Defined.

(** C1 as stated fails: a configuration with [initSize=2] and [maxSize=1]
    is loaded as it is, the constructor makes two connections, and the
    state it leaves has its counter above the ceiling. *)
Lemma bounded_size_needs_ordered_sizes :
  reachable misconfigured_pool misconfigured_pool
  /\ _connectionCnt (pool misconfigured_pool) = 2
  /\ _maxSize (pool misconfigured_pool) = 1
  /\ ~ (_initSize (pool misconfigured_pool) <= _connectionCnt (pool misconfigured_pool)
        <= _maxSize (pool misconfigured_pool)).
Proof.
  split; [now exists []|].
  split; [reflexivity|]. split; [reflexivity|].
  vm_compute. intros [_ H]. now apply H.
Qed.

End Bounded.

(** ** Acquire *)

Module Acquire.
Import PoolFacts.

(** Leaving the loop means taking the front of a queue that has one. *)
Lemma getConnection_loop_done (p p' : ConnectionPool) (r : shared_ptr) (ev : list event) :
  getConnection_loop p = done r p' ev ->
  exists front, r = sp front /\ _connectionQue p = front :: _connectionQue p'
                /\ p' = que_pop p /\ ev = [notify_all].
Proof.
  unfold getConnection_loop. destruct (_connectionQue p) as [|front q] eqn:E; [discriminate|].
  intros H. injection H as <- <- <-. exists front. cbn. rewrite E. now repeat split.
Qed.

(** Coming back from the wait, the call gives up only on an expiry that
    finds the queue empty. *)
Lemma getConnection_wake_done (st : cv_status) (p p' : ConnectionPool)
      (r : shared_ptr) (ev : list event) :
  getConnection_wake st p = done r p' ev ->
  (r = nullptr /\ st = timeout /\ _connectionQue p = [] /\ p' = p /\ ev = [LOG timeout_message])
  \/ getConnection_loop p = done r p' ev.
Proof.
  destruct st; cbn [getConnection_wake]; [now right|].
  destruct (_connectionQue p) eqn:E; [|now right].
  intros H. injection H as <- <- <-. now left.
Qed.

(** A call that has returned did so on entry or on one of its returns
    from the wait. *)
Lemma getConnection_waits_done (ws : list (cv_status * ConnectionPool)) :
  forall (o : outcome shared_ptr) (r : shared_ptr) (p' : ConnectionPool) (ev : list event),
    getConnection_waits o ws = done r p' ev ->
    o = done r p' ev
    \/ (o = blocked /\ exists st p_obs,
           In (st, p_obs) ws /\ getConnection_wake st p_obs = done r p' ev).
Proof.
  induction ws as [|[st p1] ws IH]; intros o r p' ev H.
  - left. now destruct o.
  - destruct o; cbn [getConnection_waits] in H; try (now left).
    right. split; [reflexivity|].
    destruct (IH _ _ _ _ H) as [E | (_ & st' & p_obs & Hin & E)].
    + exists st, p1. split; [now left | exact E].
    + exists st', p_obs. split; [now right | exact E].
Qed.

(** What a call that has returned brings back. *)
Lemma getConnection_done (p : ConnectionPool) (ws : list (cv_status * ConnectionPool))
      (r : shared_ptr) (p' : ConnectionPool) (ev : list event) :
  getConnection p ws = done r p' ev ->
  match r with
  | nullptr =>
      In (timeout, p') ws /\ _connectionQue p' = [] /\ ev = [LOG timeout_message]
  | sp pcon =>
      exists p_obs, (p_obs = p \/ In p_obs (map snd ws))
                    /\ _connectionQue p_obs = pcon :: _connectionQue p'
                    /\ p' = que_pop p_obs /\ ev = [notify_all]
  end.
Proof.
  intros H. unfold getConnection in H.
  assert (L : forall p_obs, (p_obs = p \/ In p_obs (map snd ws)) ->
                getConnection_loop p_obs = done r p' ev ->
                match r with
                | nullptr =>
                    In (timeout, p') ws /\ _connectionQue p' = [] /\ ev = [LOG timeout_message]
                | sp pcon =>
                    exists p_obs, (p_obs = p \/ In p_obs (map snd ws))
                                  /\ _connectionQue p_obs = pcon :: _connectionQue p'
                                  /\ p' = que_pop p_obs /\ ev = [notify_all]
                end).
  { intros p_obs Hobs E.
    destruct (getConnection_loop_done _ _ _ _ E) as (front & -> & Hq & Hp & Hev).
    exists p_obs. now repeat split. }
  destruct (getConnection_waits_done _ _ _ _ _ H) as [E | (_ & st & p_obs & Hin & E)].
  - apply (L p); [now left | exact E].
  - destruct (getConnection_wake_done _ _ _ _ _ E) as [(-> & -> & Hq & -> & ->) | E'].
    + now repeat split.
    + apply (L p_obs); [|exact E'].
      right. change p_obs with (snd (st, p_obs)). now apply in_map.
Qed.

(** C2, as the code has it.  When the wait of [getConnection] expires on
    an empty queue the call logs the timeout line and returns the null
    [shared_ptr], the pool untouched; that is the only way it returns
    null, and every other return owns the connection that was at the front
    of the queue at that moment and signals the condition variable. *)
Theorem getConnection_timeout_returns_nullptr :
  (forall p : ConnectionPool,
      _connectionQue p = [] ->
      getConnection_wake timeout p = done nullptr p [LOG timeout_message])
  /\ (forall (p : ConnectionPool) (ws : list (cv_status * ConnectionPool))
             (r : shared_ptr) (p' : ConnectionPool) (ev : list event),
         getConnection p ws = done r p' ev ->
         match r with
         | nullptr =>
             In (timeout, p') ws /\ _connectionQue p' = [] /\ ev = [LOG timeout_message]
         | sp pcon =>
             exists p_obs, (p_obs = p \/ In p_obs (map snd ws))
                           /\ _connectionQue p_obs = pcon :: _connectionQue p'
                           /\ p' = que_pop p_obs /\ ev = [notify_all]
         end).
Proof.
  split.
  - intros p E. cbn [getConnection_wake]. now rewrite E.
  - apply getConnection_done.
Qed.

Lemma getConnection_timeout_returns_nullptr_witness :
  getConnection_wake timeout exhausted_pool = done nullptr exhausted_pool [LOG timeout_message]
  /\ In (timeout, exhausted_pool) [(no_timeout, exhausted_pool); (timeout, exhausted_pool)].
Proof.
  split.
  - apply (proj1 getConnection_timeout_returns_nullptr). reflexivity.
  - apply (proj2 getConnection_timeout_returns_nullptr exhausted_pool
             [(no_timeout, exhausted_pool); (timeout, exhausted_pool)]
             nullptr exhausted_pool [LOG timeout_message]).
    reflexivity.
Defined.

(** C2 as stated fails: with both connections checked out, a caller whose
    wait expires gets the null [shared_ptr] back, not a failure of a type
    of its own. *)
Lemma getConnection_timeout_is_a_null_handle :
  getConnection exhausted_pool [(timeout, exhausted_pool)]
  = done nullptr exhausted_pool [LOG timeout_message]
  /\ ~ (forall (r : shared_ptr) (p' : ConnectionPool) (ev : list event),
           getConnection exhausted_pool [(timeout, exhausted_pool)] = done r p' ev ->
           r <> nullptr).
Proof.
  split; [reflexivity|].
  intros H. now apply (H nullptr exhausted_pool [LOG timeout_message]).
Qed.

(** C6.  An expiry of the wait is followed by a look at the queue under
    the same hold of the mutex: when the queue has a connection the call
    takes it, and a call that returns the timeout failure found the queue
    empty at that expiry. *)
Theorem getConnection_rechecks_queue_on_expiry :
  (forall (p : ConnectionPool) (front : Connection) (q : list Connection),
      _connectionQue p = front :: q ->
      getConnection_wake timeout p = done (sp front) (que_pop p) [notify_all]
      /\ _connectionQue (que_pop p) = q)
  /\ (forall (p : ConnectionPool) (ws : list (cv_status * ConnectionPool))
             (p' : ConnectionPool) (ev : list event),
         getConnection p ws = done nullptr p' ev ->
         _connectionQue p' = [] /\ In (timeout, p') ws)
  /\ (forall (st : cv_status) (p : ConnectionPool) (p' : ConnectionPool) (ev : list event),
         _connectionQue p <> [] -> getConnection_wake st p <> done nullptr p' ev).
Proof.
  split; [|split].
  - intros p front q E. cbn [getConnection_wake]. unfold getConnection_loop.
    rewrite E. split; [reflexivity|]. cbn. now rewrite E.
  - intros p ws p' ev H.
    destruct (getConnection_done _ _ _ _ _ H) as (Hin & Hq & _).
    now split.
  - intros st p p' ev Hne H.
    destruct (getConnection_wake_done _ _ _ _ _ H) as [(_ & _ & Hq & _) | E].
    + contradiction.
    + destruct (getConnection_loop_done _ _ _ _ E) as (front & Hr & _). discriminate.
Qed.

Lemma getConnection_rechecks_queue_on_expiry_witness :
  getConnection_wake timeout (set_que [mkConnection 0 true 50] 2 exhausted_pool)
  = done (sp (mkConnection 0 true 50)) (que_pop (set_que [mkConnection 0 true 50] 2 exhausted_pool))
      [notify_all]
  /\ _connectionQue exhausted_pool = []
  /\ getConnection_wake timeout (set_que [mkConnection 0 true 50] 2 exhausted_pool)
     <> done nullptr exhausted_pool [].
Proof.
  split; [|split].
  - apply (proj1 getConnection_rechecks_queue_on_expiry
             (set_que [mkConnection 0 true 50] 2 exhausted_pool) (mkConnection 0 true 50) []).
    reflexivity.
  - apply (proj1 (proj2 getConnection_rechecks_queue_on_expiry)
             exhausted_pool [(timeout, exhausted_pool)] exhausted_pool [LOG timeout_message]).
    reflexivity.
  - apply (proj2 (proj2 getConnection_rechecks_queue_on_expiry)).
    discriminate.
Defined.

End Acquire.

(** ** Release *)

Module Release.

(** The deleter refreshes the timestamp and appends the connection to the
    tail of the queue; it causes no event. *)
Lemma deleter_spec (clock : Z) (pcon : Connection) (p : ConnectionPool) :
  deleter clock pcon p
  = (set_que (_connectionQue p ++ [mkConnection (conn_id pcon) (conn_open pcon) clock])
       (_connectionCnt p) p, []).
Proof. reflexivity. Qed.

(** C3 at the failing input.  Both connections are checked out and a
    caller sleeps in [getConnection]; the first connection is released at
    clock 50.  The deleter stamps it and queues it, and signals nobody:
    the sleeping caller stays asleep until something else wakes it, while
    the producer's push of a connection is followed by [notify_all]. *)
Theorem deleter_sends_no_signal :
  deleter 50 (mkConnection 0 true 0) exhausted_pool
  = (set_que [mkConnection 0 true 50] 2 exhausted_pool, [])
  /\ notifications (snd (deleter 50 (mkConnection 0 true 0) exhausted_pool)) = 0%nat
  /\ getConnection exhausted_pool [] = blocked
  /\ produceConnectionTask 7 (mkCreation true 50) drained_pool
     = done tt (set_que [mkConnection 7 true 50] 2 drained_pool) [notify_all].
Proof. repeat split. Qed.

End Release.

(** ** The producer *)

Module Producer.

(** C7.  With the queue empty and the counter below [_maxSize], a turn of
    the producer makes one connection, connects it, stamps it with the
    clock, makes it the only element of the queue, adds one to the
    counter and calls [notify_all]; with a connection in the queue the
    producer sleeps on the condition variable and changes nothing. *)
Theorem produceConnectionTask_policy (id : nat) (w : creation) (p : ConnectionPool) :
  (_connectionQue p = [] -> _connectionCnt p < _maxSize p ->
   produceConnectionTask id w p
   = done tt (set_que [create id w] (_connectionCnt p + 1) p) [notify_all]
   /\ conn_id (create id w) = id
   /\ conn_open (create id w) = connect_ok w
   /\ getAliveeTime (clock_at w) (create id w) = 0)
  /\ (_connectionQue p <> [] -> produceConnectionTask id w p = blocked).
Proof.
  split.
  - intros Hq Hlt. unfold produceConnectionTask. rewrite Hq.
    apply Z.ltb_lt in Hlt. rewrite Hlt.
    unfold cnt_incr, que_push. cbn. rewrite Hq. repeat split.
    unfold getAliveeTime. cbn. lia.
  - intros Hne. unfold produceConnectionTask.
    now destruct (_connectionQue p).
Qed.

Lemma produceConnectionTask_policy_witness :
  produceConnectionTask 7 (mkCreation true 50) drained_pool
  = done tt (set_que [mkConnection 7 true 50] 2 drained_pool) [notify_all]
  /\ produceConnectionTask 8 (mkCreation true 60)
       (set_que [mkConnection 7 true 50] 2 drained_pool) = blocked.
Proof.
  split.
  - apply (proj1 (produceConnectionTask_policy 7 (mkCreation true 50) drained_pool)).
    + reflexivity.
    + reflexivity.
  - apply (proj2 (produceConnectionTask_policy 8 (mkCreation true 60)
                    (set_que [mkConnection 7 true 50] 2 drained_pool))).
    discriminate.
Defined.

(** C4, as the code has it.  The producer does not look at what [connect]
    returned: with the queue empty and the counter below [_maxSize] it
    queues the new record and adds one to the counter whether the
    connection was opened or not, and the only thing it tells anybody is
    [notify_all]. *)
Theorem produceConnectionTask_ignores_connect (id : nat) (ok : bool) (clock : Z)
        (p : ConnectionPool) :
  _connectionQue p = [] -> _connectionCnt p < _maxSize p ->
  produceConnectionTask id (mkCreation ok clock) p
  = done tt (set_que [mkConnection id ok clock] (_connectionCnt p + 1) p) [notify_all].
Proof.
  intros Hq Hlt. unfold produceConnectionTask. rewrite Hq.
  apply Z.ltb_lt in Hlt. rewrite Hlt.
  unfold cnt_incr, que_push. cbn. now rewrite Hq.
Qed.

Lemma produceConnectionTask_ignores_connect_witness :
  produceConnectionTask 7 (mkCreation false 9) drained_pool
  = done tt (set_que [mkConnection 7 false 9] 2 drained_pool) [notify_all].
Proof.
  apply (produceConnectionTask_ignores_connect 7 false 9 drained_pool).
  - reflexivity.
  - reflexivity.
Defined.

(** C4 as stated fails: the attempt whose [connect] fails is no no-op.
    The record of the connection that could not be opened is queued and
    the counter goes from 1 to 2. *)
Lemma failed_connect_is_counted_and_queued :
  exists p' : ConnectionPool,
    produceConnectionTask 7 (mkCreation false 9) drained_pool = done tt p' [notify_all]
    /\ _connectionCnt drained_pool = 1 /\ _connectionCnt p' = 2
    /\ _connectionQue drained_pool = []
    /\ _connectionQue p' = [mkConnection 7 false 9]
    /\ p' <> drained_pool.
Proof.
  eexists. repeat split. discriminate.
Qed.

End Producer.

(** ** The scanner *)

Module Reaper.

(** Where the threshold in milliseconds fits an [int] and the scanner's
    cycle stays within defined behaviour, it is the Reaper's cycle of the
    spec, and it leaves the counter at or above [_initSize] when it found
    it there. *)
Lemma scannerConnectionTask_done (clock : Z) (p p' : ConnectionPool) (ev : list event) :
  to_int (_maxIdleTime p * 1000) = _maxIdleTime p * 1000 ->
  scannerConnectionTask clock p = done tt p' ev ->
  (set_que (fst (fst (reaper_cycle clock (_initSize p) (_maxIdleTime p)
                        (_connectionQue p) (_connectionCnt p))))
     (snd (fst (reaper_cycle clock (_initSize p) (_maxIdleTime p)
                  (_connectionQue p) (_connectionCnt p)))) p = p')
  /\ snd (reaper_cycle clock (_initSize p) (_maxIdleTime p)
            (_connectionQue p) (_connectionCnt p)) = ev
  /\ _connectionCnt p' <= _connectionCnt p
  /\ Z.min (_initSize p) (_connectionCnt p) <= _connectionCnt p'.
Proof.
  intros Hfit. unfold scannerConnectionTask.
  destruct (scanner_loop clock (_initSize p) (_maxIdleTime p) (_connectionQue p)
              (_connectionCnt p)) as [[[q cnt] ev1]|] eqn:E; [|discriminate].
  intros H. injection H as <- <-.
  pose proof (PoolFacts.scanner_loop_bounds _ _ _ _ _ _ _ _ E) as B.
  rewrite PoolFacts.scanner_loop_reaper in E by assumption.
  destruct (reaper_cycle clock (_initSize p) (_maxIdleTime p) (_connectionQue p)
              (_connectionCnt p)) as [[q1 cnt1] ev2].
  destruct q1; [destruct (cnt1 >? _initSize p); [discriminate|]|];
    injection E as <- <- <-; cbn; repeat split; apply B.
Qed.

(** With as many connections in the queue as the counter is above
    [_initSize], the cycle does stay within defined behaviour. *)
Lemma scanner_loop_defined (clock initSize maxIdleTime : Z) (q : list Connection) :
  forall cnt : Z,
    cnt - initSize <= Z.of_nat (List.length q) ->
    scanner_loop clock initSize maxIdleTime q cnt <> None.
Proof.
  induction q as [|head q IH]; intros cnt H; cbn [scanner_loop].
  - destruct (Z.gtb_spec cnt initSize); [simpl in H; lia | discriminate].
  - destruct (cnt >? initSize); [|discriminate].
    destruct (getAliveeTime clock head >=? to_int (maxIdleTime * 1000)); [|discriminate].
    specialize (IH (cnt - 1)).
    destruct (scanner_loop clock initSize maxIdleTime q (cnt - 1)) as [[[q' c'] ev]|].
    + discriminate.
    + exfalso. apply IH; [|reflexivity]. simpl List.length in H. lia.
Qed.

(** C5 at the failing input.  The pool is configured with [initSize=1],
    [maxSize=2]; two callers hold its two connections, which is a state
    the process reaches.  The scanner wakes up: the counter is above
    [_initSize], so it asks for the front of the empty queue, which C++
    leaves undefined; the cycle of the spec finds no head and stops with
    the pool as it was. *)
Theorem scanner_front_of_empty_queue :
  run both_taken started_pool = Some both_held
  /\ pool both_held = exhausted_pool
  /\ fire (scan 100000) both_held = None
  /\ scannerConnectionTask 100000 exhausted_pool = undefined
  /\ reaper_cycle 100000 (_initSize exhausted_pool) (_maxIdleTime exhausted_pool)
       (_connectionQue exhausted_pool) (_connectionCnt exhausted_pool)
     = ([], 2, []).
Proof.
  repeat split; vm_compute; reflexivity.
Qed.

End Reaper.

(** ** What acquire and release leave alone *)

Module Frame.
Import PoolFacts.

(** C9.  A critical section of [getConnection] and a release through the
    deleter leave [_connectionCnt] and the nine configuration fields as
    they are, and so does a whole call of [getConnection] across its
    waits when the other threads do; among the critical sections of the
    process only the producer's raises the counter and only the scanner's
    lowers it. *)
Theorem acquire_release_keep_counter :
  (forall (wake : option cv_status) (s s' : System),
      fire (acquire wake) s = Some s' ->
      _connectionCnt (pool s') = _connectionCnt (pool s)
      /\ config (pool s') = config (pool s))
  /\ (forall (clock : Z) (pcon : Connection) (p : ConnectionPool),
         _connectionCnt (fst (deleter clock pcon p)) = _connectionCnt p
         /\ config (fst (deleter clock pcon p)) = config p)
  /\ (forall (p : ConnectionPool) (ws : list (cv_status * ConnectionPool))
             (r : shared_ptr) (p' : ConnectionPool) (ev : list event),
         getConnection p ws = done r p' ev ->
         Forall (fun w => _connectionCnt (snd w) = _connectionCnt p
                          /\ config (snd w) = config p) ws ->
         _connectionCnt p' = _connectionCnt p /\ config p' = config p)
  /\ (forall (a : action) (s s' : System),
         fire a s = Some s' ->
         (_connectionCnt (pool s) < _connectionCnt (pool s') -> exists id w, a = produce id w)
         /\ (_connectionCnt (pool s') < _connectionCnt (pool s) -> exists clock, a = scan clock)).
Proof.
  split; [|split; [|split]].
  - intros wake s s' F. destruct (fire_frame _ _ _ F) as [Hc Hn]. now split.
  - intros clock pcon p. now split.
  - intros p ws r p' ev H Hws.
    pose proof (Acquire.getConnection_done _ _ _ _ _ H) as D.
    rewrite Forall_forall in Hws.
    destruct r as [|pcon].
    + destruct D as (Hin & _). apply (Hws _ Hin).
    + destruct D as (p_obs & Hobs & _ & -> & _).
      assert (E : _connectionCnt p_obs = _connectionCnt p /\ config p_obs = config p).
      { destruct Hobs as [->|Hin]; [now split|].
        apply in_map_iff in Hin as ([st q] & <- & Hin). apply (Hws _ Hin). }
      exact E.
  - intros a s s' F. destruct (fire_frame _ _ _ F) as [_ Hn].
    destruct a as [id w | wake | clock pcon | clock]; split; intros Hlt; try lia.
    + now exists id, w.
    + now exists clock.
Qed.

Lemma acquire_release_keep_counter_witness :
  (_connectionCnt (pool waited) = _connectionCnt (pool released)
   /\ config (pool waited) = config (pool released))
  /\ (_connectionCnt (que_pop (pool released)) = 2
      /\ config (que_pop (pool released)) = config exhausted_pool)
  /\ (exists id w, produce 7 (mkCreation true 5) = produce id w)
  /\ (exists clock, scan 100000 = scan clock).
Proof.
  split; [|split; [|split]].
  - apply (proj1 acquire_release_keep_counter (Some timeout) released waited).
    reflexivity.
  - apply (proj1 (proj2 (proj2 acquire_release_keep_counter))
             exhausted_pool [(timeout, pool released)]
             (sp (mkConnection 0 true 50)) (que_pop (pool released)) [notify_all]).
    + reflexivity.
    + repeat constructor.
  - apply (proj1 (proj2 (proj2 (proj2 acquire_release_keep_counter))
                    (produce 7 (mkCreation true 5))
                    (mkSystem drained_pool [] [thread_detach producer])
                    (mkSystem (set_que [mkConnection 7 true 5] 2 drained_pool) []
                       [thread_detach producer; notify_all])
                    eq_refl)).
    reflexivity.
  - apply (proj2 (proj2 (proj2 (proj2 acquire_release_keep_counter))
                    (scan 100000)
                    (mkSystem (pool released) [] [thread_detach scanner])
                    (mkSystem (set_que [] 1 exhausted_pool) []
                       [thread_detach scanner; delete (mkConnection 0 true 50)])
                    eq_refl)).
    reflexivity.
Defined.

End Frame.

(** ** No configuration file *)

Module Missing.

Lemma never_started_tasks (t : task) (s : System) :
  never_started s -> started t s = false.
Proof.
  intros (_ & _ & H). unfold started.
  induction H as [|e tr He _ IH]; [reflexivity|].
  cbn [existsb]. rewrite IH. now destruct e.
Qed.

Lemma fire_never_started (a : action) (s s' : System) :
  fire a s = Some s' -> never_started s ->
  never_started s' /\ a = acquire (Some timeout).
Proof.
  intros F N. pose proof (never_started_tasks producer s N) as Np.
  pose proof (never_started_tasks scanner s N) as Ns.
  destruct N as (Hp & Hh & Ht).
  destruct a as [id w | wake | clock pcon | clock]; cbn [fire] in F.
  - rewrite Np in F. discriminate.
  - rewrite Hp in F. destruct wake as [[|]|]; cbn in F; try discriminate.
    injection F as <-. split; [|reflexivity].
    repeat split; cbn; try assumption.
    apply Forall_app. split; [assumption | now repeat constructor].
  - rewrite Hh in F. discriminate.
  - rewrite Ns in F. discriminate.
Qed.

Lemma run_never_started (acts : list action) :
  forall s s' : System, run acts s = Some s' -> never_started s -> never_started s'.
Proof.
  induction acts as [|a acts IH]; intros s s' R N.
  - now injection R as <-.
  - cbn [run] in R. destruct (fire a s) as [s1|] eqn:F; [|discriminate].
    apply (IH _ _ R). eapply fire_never_started; eassumption.
Qed.

(** On a pool that never changes, a call returns at the first expiry of
    its wait, and returns null. *)
Lemma getConnection_on_empty (p : ConnectionPool) (sts : list cv_status) :
  _connectionQue p = [] ->
  getConnection p (map (fun st => (st, p)) sts)
  = if existsb is_timeout sts then done nullptr p [LOG timeout_message] else blocked.
Proof.
  intros E. unfold getConnection, getConnection_loop. rewrite E.
  induction sts as [|st sts IH]; [reflexivity|].
  cbn [map getConnection_waits existsb].
  destruct st; cbn [getConnection_wake is_timeout orb].
  - unfold getConnection_loop. rewrite E. exact IH.
  - rewrite E. now destruct sts.
Qed.

(** C8.  Without [mysql.ini], [loadConfigFile] logs and returns false and
    the constructor returns at once: the object stays as static storage
    left it, with no connection, a zero counter and no thread started, and
    it stays so in every state the process reaches.  Every later
    [getConnection] fails fast: it finds the queue empty, its wait is for
    the zero [_connectionTimeout], so the wait is over at once with status
    [timeout], and at that first return it logs the timeout line and
    returns null; no call goes round the loop a second time and none gets
    a connection. *)
Theorem missing_configuration (world : nat -> creation) :
  loadConfigFile None static_pool
  = (false, static_pool, [LOG "mysql.ini file is not exist!"])
  /\ boot None world = mkSystem static_pool [] [LOG "mysql.ini file is not exist!"]
  /\ (forall s : System,
         reachable (boot None world) s ->
         pool s = static_pool /\ handles s = []
         /\ started producer s = false /\ started scanner s = false)
  /\ _connectionTimeout static_pool = 0
  /\ (forall sts : list cv_status,
         getConnection static_pool (map (fun st => (st, static_pool)) sts)
         = if existsb is_timeout sts
           then done nullptr static_pool [LOG timeout_message]
           else blocked)
  /\ (forall st : cv_status,
         wait_for_returns (_connectionTimeout static_pool) st = true -> st = timeout)
  /\ (forall (s : System) (st : cv_status) (later : list (cv_status * ConnectionPool)),
         reachable (boot None world) s ->
         wait_for_returns (_connectionTimeout (pool s)) st = true ->
         getConnection (pool s) ((st, pool s) :: later)
         = done nullptr (pool s) [LOG timeout_message]).
Proof.
  assert (I : forall s : System,
             reachable (boot None world) s ->
             pool s = static_pool /\ handles s = []
             /\ started producer s = false /\ started scanner s = false).
  { intros s [acts R].
    assert (N : never_started (boot None world)).
    { repeat split. now repeat constructor. }
    pose proof (run_never_started _ _ _ R N) as N'.
    pose proof (never_started_tasks producer s N').
    pose proof (never_started_tasks scanner s N').
    destruct N' as (Hp & Hh & _). now repeat split. }
  assert (W : forall st : cv_status,
             wait_for_returns (_connectionTimeout static_pool) st = true -> st = timeout).
  { intros st. unfold wait_for_returns. cbn. now destruct st. }
  split; [reflexivity|]. split; [reflexivity|]. split; [exact I|].
  split; [reflexivity|]. split; [|split; [exact W|]].
  - intros sts. now apply getConnection_on_empty.
  - intros s st later R H. destruct (I s R) as (E & _). rewrite E in *.
    rewrite (W st H). now destruct later.
Qed.

Lemma missing_configuration_witness :
  (exists s : System,
      run [acquire (Some timeout)] unconfigured_pool = Some s
      /\ pool s = static_pool /\ handles s = []
      /\ started producer s = false /\ started scanner s = false)
  /\ getConnection (pool unconfigured_pool) [(timeout, pool unconfigured_pool)]
     = done nullptr (pool unconfigured_pool) [LOG timeout_message].
Proof.
  split.
  - exists (mkSystem static_pool []
              [LOG "mysql.ini file is not exist!"; LOG timeout_message]).
    split; [reflexivity|].
    apply (proj1 (proj2 (proj2 (missing_configuration calm)))).
    exists [acquire (Some timeout)]. reflexivity.
  - apply (proj2 (proj2 (proj2 (proj2 (proj2 (proj2 (missing_configuration calm))))))
             unconfigured_pool timeout []).
    + exists []. reflexivity.
    + reflexivity.
Defined.

End Missing.

(** ** Loading the configuration *)

Module ConfigFile.
Import Str Stdio StrFacts ConfigFacts LoadFacts.

Lemma to_int_range (z : Z) : - 2 ^ 31 <= to_int z < 2 ^ 31.
Proof.
  unfold to_int.
  pose proof (Z.mod_pos_bound (z + 2 ^ 31) (2 ^ 32) eq_refl) as H.
  change (2 ^ 32) with (2 * 2 ^ 31) in *. lia.
Qed.

Lemma to_int_fits (z : Z) : - 2 ^ 31 <= z < 2 ^ 31 -> to_int z = z.
Proof.
  intros H. unfold to_int. rewrite Z.mod_small; [lia|].
  change (2 ^ 32) with (2 * 2 ^ 31). lia.
Qed.

Lemma atoi_fits (s : string) :
  - 2 ^ 31 <= atoi s < 2 ^ 31
  /\ (- 2 ^ 31 <= decimal s < 2 ^ 31 -> atoi s = decimal s).
Proof.
  split; [apply to_int_range|].
  intros H. unfold atoi, to_long.
  assert (P : 2 ^ 31 < 2 ^ 63) by reflexivity.
  rewrite Z.min_l, Z.max_r by lia. now apply to_int_fits.
Qed.

Lemma ends_nl_tail (c : ascii) (a : string) :
  a <> EmptyString -> ends_nl (String c a) = ends_nl a.
Proof. destruct a; [congruence | reflexivity]. Qed.

(** The first call of [fgets] on a text of whole lines stays within the
    text, whatever follows it, and leaves whole lines behind. *)
Lemma fgets_chars_prefix (bad : bool) (a : string) :
  forall (room : nat) (b : string),
    a <> EmptyString -> ends_nl a = true ->
    exists l r,
      fgets_chars bad (S room) a = (l, on_device r false bad)
      /\ fgets_chars bad (S room) (a ++ b)%string = (l, on_device (r ++ b)%string false bad)
      /\ (String.length r < String.length a)%nat
      /\ ends_nl r = true.
Proof.
  induction a as [|c a IH]; intros room b Hne He; [congruence|].
  cbn [fgets_chars append].
  destruct (Ascii.eqb c newline) eqn:Ec.
  - exists (String c EmptyString), a. repeat split; [simpl; lia|].
    destruct a as [|d a]; [reflexivity|]. exact He.
  - assert (Ha : a <> EmptyString).
    { intros ->. cbn in He. congruence. }
    rewrite ends_nl_tail in He by assumption.
    destruct room as [|room].
    + exists (String c EmptyString), a. cbn [fgets_chars]. repeat split; [simpl; lia | exact He].
    + destruct (IH room b Ha He) as (l & r & E1 & E2 & Hlen & Hr).
      rewrite E1, E2. exists (String c l), r. repeat split; [simpl; lia | exact Hr].
Qed.

(** Reading whole lines and then the rest of the file is reading the
    lines, and then reading the rest. *)
Lemma read_all_app (n : nat) :
  forall (a b : string) (p : ConnectionPool),
    (String.length a < n)%nat -> ends_nl a = true ->
    read_all (mkFILE (a ++ b)%string false) p
    = read_all (mkFILE b false) (read_all (mkFILE a false) p).
Proof.
  induction n as [|n IH]; intros a b p Hn He; [lia|].
  destruct a as [|c a]; [reflexivity|].
  destruct (fgets_chars_prefix false (String c a) 1022 b) as (l & r & E1 & E2 & Hlen & Hr);
    [discriminate | assumption |].
  rewrite (read_all_turn (mkFILE (String c a ++ b)%string false)) by reflexivity.
  rewrite (read_all_turn (mkFILE (String c a) false)) by reflexivity.
  cbn [feof eof]. unfold fgets. change (Nat.pred 1024) with 1023%nat.
  cbn [rest failing]. rewrite E1, E2.
  apply IH; [simpl in *; lia | exact Hr].
Qed.

Lemma read_file_is (content : string) (p : ConnectionPool) :
  loadConfigFile (Some content) p = (true, read_all (mkFILE content false) p, []).
Proof. reflexivity. Qed.

(** C10, as the code has it.  Take a line that begins where a line begins,
    whatever the lines before and after it are.  If it is an entry
    [key=value] that fits the 1024-character line buffer with its newline
    and holds no NUL, reading it stores the characters strictly between its
    first ['='] and its newline under its key: as they are for the five
    text fields, as the [int] that [atoi] returns for the four numbers
    (the number they spell when that fits an [int]).  If it has no ['='],
    whatever its length, reading it changes no field.  Either way the rest
    of the file is read next, and on a file that is read to its end without
    a read error [loadConfigFile] returns, and returns true. *)
Theorem loadConfigFile_stores_line (before after : string) (p : ConnectionPool) :
  ends_nl before = true ->
  (forall key value : string,
      entry_shaped (kv key value) = true -> entry_fits (kv key value) = true ->
      loadConfigFile (Some (before ++ entry_line (kv key value) ++ after)%string) p
      = loadConfigFile (Some after) (store key value (read_file before p)))
  /\ (forall text : string,
         entry_shaped (other text) = true ->
         loadConfigFile (Some (before ++ entry_line (other text) ++ after)%string) p
         = loadConfigFile (Some after) (read_file before p))
  /\ (forall (v : string) (q : ConnectionPool),
         _ip (store "ip" v q) = v
         /\ _port (store "port" v q) = Str.atoi v
         /\ _username (store "username" v q) = v
         /\ _password (store "password" v q) = v
         /\ _dbname (store "dbname" v q) = v
         /\ _initSize (store "initSize" v q) = Str.atoi v
         /\ _maxSize (store "maxSize" v q) = Str.atoi v
         /\ _maxIdleTime (store "maxIdleTime" v q) = Str.atoi v
         /\ _connectionTimeout (store "connectionTimeOut" v q) = Str.atoi v
         /\ - 2 ^ 31 <= Str.atoi v < 2 ^ 31
         /\ (- 2 ^ 31 <= Str.decimal v < 2 ^ 31 -> Str.atoi v = Str.decimal v))
  /\ (forall (content : string) (q : ConnectionPool) (turns : nat),
         (String.length content + 2 <= turns)%nat ->
         loadConfigFile_within turns (Some (on_device content false false)) q
         = Some (true, read_file content q, [])).
Proof.
  intros He. split; [|split; [|split]].
  - intros key value Hs Hf.
    rewrite !read_file_is. unfold read_file. rewrite read_file_is. cbn [fst snd].
    f_equal. f_equal.
    rewrite (read_all_app (S (String.length before))) by (assumption || lia).
    now rewrite read_all_kv.
  - intros text Hs.
    rewrite !read_file_is. unfold read_file. rewrite read_file_is. cbn [fst snd].
    f_equal. f_equal.
    rewrite (read_all_app (S (String.length before))) by (assumption || lia).
    cbn [entry_line]. rewrite app_assoc_s.
    change (nl ++ after)%string with (String newline after).
    cbn [entry_shaped] in Hs. apply andb_true_iff in Hs as [Hs1 Hs2].
    apply negb_true_iff in Hs1, Hs2.
    now rewrite (read_all_other (S (String.length text))) by (assumption || lia).
  - intros v q. destruct (atoi_fits v) as [Hr Hd]. repeat split; try apply Hr. exact Hd.
  - intros content q turns H. unfold loadConfigFile_within.
    rewrite read_lines_ends by (reflexivity || (cbn [rest]; lia)). reflexivity.
Qed.

(** A short entry that follows a line too long for the buffer is stored,
    and so is the number of an entry that follows a line of other text. *)
Lemma loadConfigFile_stores_line_witness :
  loadConfigFile
    (Some (entry_line (kv "ip" long_value) ++ entry_line (kv "maxSize" "2") ++ ""))%string
    static_pool
  = loadConfigFile (Some EmptyString)
      (store "maxSize" "2" (read_file (entry_line (kv "ip" long_value)) static_pool))
  /\ loadConfigFile
       (Some (entry_line (kv "ip" "127.0.0.1") ++ entry_line (other "# sizes") ++ "port=3306"))%string
       static_pool
     = loadConfigFile (Some "port=3306")
         (read_file (entry_line (kv "ip" "127.0.0.1")) static_pool)
  /\ Str.atoi "3306" = Str.decimal "3306"
  /\ loadConfigFile_within 200 (Some (on_device mysql_ini false false)) static_pool
     = Some (true, read_file mysql_ini static_pool, []).
Proof.
  assert (E1 : ends_nl (entry_line (kv "ip" long_value)) = true) by (vm_compute; reflexivity).
  assert (E2 : ends_nl (entry_line (kv "ip" "127.0.0.1")) = true) by reflexivity.
  split; [|split; [|split]].
  - apply (proj1 (loadConfigFile_stores_line (entry_line (kv "ip" long_value)) "" static_pool E1)
             "maxSize" "2" eq_refl eq_refl).
  - apply (proj1 (proj2 (loadConfigFile_stores_line (entry_line (kv "ip" "127.0.0.1"))
                           "port=3306" static_pool E2)) "# sizes" eq_refl).
  - apply (proj1 (proj2 (proj2 (loadConfigFile_stores_line EmptyString EmptyString static_pool
                                  eq_refl))) "3306" static_pool).
    vm_compute. split; [discriminate | reflexivity].
  - apply (proj2 (proj2 (proj2 (loadConfigFile_stores_line EmptyString EmptyString static_pool
                                  eq_refl))) mysql_ini static_pool 200%nat).
    apply Nat.leb_le. vm_compute. reflexivity.
Defined.

(** C10 as stated fails for a line that does not fit the buffer and for
    one with a NUL in it: of the 1030 characters after [ip=] the field
    receives the first 1020, and of [a\0b] it receives [a]. *)
Lemma loadConfigFile_cuts_long_lines :
  entry_shaped (kv "ip" long_value) = true
  /\ _ip (loaded (file_of [kv "ip" long_value])) = replicate 1020 "a"%char
  /\ _ip (loaded (file_of [kv "ip" long_value])) <> long_value
  /\ entry_shaped (kv "ip" nul_value) = true
  /\ _ip (loaded (file_of [kv "ip" nul_value])) = "a"
  /\ _ip (loaded (file_of [kv "ip" nul_value])) <> nul_value.
Proof.
  assert (E : _ip (loaded (file_of [kv "ip" long_value])) = replicate 1020 "a"%char)
    by (vm_compute; reflexivity).
  assert (N : _ip (loaded (file_of [kv "ip" nul_value])) = "a")
    by (vm_compute; reflexivity).
  split; [vm_compute; reflexivity|]. split; [exact E|]. split.
  - rewrite E. intros H. apply (f_equal String.length) in H.
    vm_compute in H. discriminate.
  - split; [vm_compute; reflexivity|]. split; [exact N|].
    rewrite N. discriminate.
Qed.

End ConfigFile.

(** * Beyond the claims *)

(** ** More on the configuration file *)

Module ConfigMore.
Import Str Stdio StrFacts ConfigFacts LoadFacts.

Lemma take_all (s : string) : take (String.length s) s = s.
Proof. induction s as [|c s IH]; simpl; [reflexivity | now rewrite IH]. Qed.

Lemma take_short (n : nat) (s : string) : (String.length s <= n)%nat -> take n s = s.
Proof.
  revert n. induction s as [|c s IH]; intros [|n] H; simpl in *; try reflexivity; try lia.
  rewrite IH by lia. reflexivity.
Qed.

Lemma drop_short (n : nat) (s : string) : (String.length s <= n)%nat -> drop n s = EmptyString.
Proof.
  revert n. induction s as [|c s IH]; intros [|n] H; simpl in *; try reflexivity; try lia.
  apply IH. lia.
Qed.




(** [fgets] on the last stretch of a file that does not end in a newline. *)
Lemma fgets_chars_tail (bad : bool) (room : nat) (t : string) :
  mem newline t = false ->
  fgets_chars bad room t =
  if Nat.ltb (String.length t) room
  then (t, on_device EmptyString (negb bad) bad)
  else (take room t, on_device (drop room t) false bad).
Proof.
  revert t. induction room as [|room IH]; intros t H.
  - simpl. now destruct t.
  - destruct t as [|c t]; simpl; [reflexivity|].
    simpl in H. apply orb_false_iff in H as [Hc Ht].
    rewrite Hc, IH by assumption.
    change (Nat.ltb (S (String.length t)) (S room)) with (Nat.ltb (String.length t) room).
    now destruct (Nat.ltb (String.length t) room).
Qed.

(** Without a newline after the value, [find] returns [npos], the count
    handed to [substr] is negative as an [int] and huge as a [size_t], and
    the value runs to the end of the line. *)
Lemma parse_line_kv_open (key value : string) (p : ConnectionPool) :
  mem "="%char key = false ->
  mem newline value = false ->
  (String.length (key ++ "=" ++ value)%string <= 1023)%nat ->
  parse_line (key ++ "=" ++ value)%string p = store key value p.
Proof.
  intros Hk Hv Hlen.
  set (str := (key ++ "=" ++ value)%string) in *.
  assert (Lstr : String.length str = (String.length key + S (String.length value))%nat).
  { unfold str. rewrite length_app. reflexivity. }
  unfold parse_line.
  assert (Hidx : find "="%char 0 str = Z.of_nat (String.length key)).
  { unfold find, str. simpl. now rewrite find_from_app. }
  rewrite Hidx.
  destruct (Z.eqb_spec (Z.of_nat (String.length key)) (-1)) as [E|_]; [lia|].
  assert (D : forall k t, drop (S (String.length k)) (k ++ String "="%char t)%string = t).
  { induction k as [|c k IH]; intros t; simpl; [now destruct t | apply IH]. }
  assert (Hend : find newline (Z.of_nat (String.length key)) str = -1).
  { unfold find. rewrite Nat2Z.id. unfold str. rewrite drop_app.
    apply find_from_none. simpl. exact Hv. }
  rewrite Hend.
  assert (P64 : 2 ^ 64 = 18446744073709551616) by reflexivity.
  f_equal.
  - unfold substr. rewrite to_size_t_small by lia.
    rewrite Z.min_l by lia. simpl. rewrite Nat2Z.id. apply take_app.
  - unfold substr, to_size_t.
    replace ((-1 - Z.of_nat (String.length key) - 1) mod 2 ^ 64)
      with (2 ^ 64 - Z.of_nat (String.length key) - 2).
    2:{ apply Z.mod_unique with (q := -1); lia. }
    rewrite Z.min_r by lia.
    replace (Z.to_nat (Z.of_nat (String.length str) - (Z.of_nat (String.length key) + 1)))
      with (String.length value) by lia.
    replace (Z.to_nat (Z.of_nat (String.length key) + 1)) with (S (String.length key)) by lia.
    unfold str.
    change (key ++ "=" ++ value)%string with (key ++ String "="%char value)%string.
    rewrite D. apply take_all.
Qed.

(** A last entry that the file does not close with a newline. *)
Lemma read_all_kv_open (key value : string) (p : ConnectionPool) :
  mem "="%char key = false -> mem newline key = false -> mem newline value = false ->
  mem nul (key ++ "=" ++ value)%string = false ->
  (String.length (key ++ "=" ++ value)%string <= 1023)%nat ->
  read_all (mkFILE (key ++ "=" ++ value)%string false) p = store key value p.
Proof.
  intros Hk Hkn Hv Hnul Hlen.
  assert (Ht : mem newline (key ++ "=" ++ value)%string = false).
  { rewrite mem_app, Hkn. simpl. exact Hv. }
  rewrite read_all_turn by reflexivity. cbn [feof eof].
  unfold fgets. change (Nat.pred 1024) with 1023%nat. cbn [rest failing].
  rewrite fgets_chars_tail by assumption.
  destruct (Nat.ltb_spec (String.length (key ++ "=" ++ value)%string) 1023) as [Hlt|Hge].
  - rewrite of_c_str_id by assumption. rewrite parse_line_kv_open by assumption.
    cbn [negb]. rewrite read_all_turn by reflexivity. reflexivity.
  - rewrite take_short, drop_short by lia.
    rewrite of_c_str_id by assumption. rewrite parse_line_kv_open by assumption.
    apply read_all_end.
Qed.

(** The entries of a file are handled one after the other, whatever text
    follows them. *)
Lemma read_all_entries_then (es : list entry) :
  forall (tail : string) (p : ConnectionPool),
    forallb entry_shaped es = true -> forallb entry_fits es = true ->
    read_all (mkFILE (file_of es ++ tail)%string false) p
    = read_all (mkFILE tail false) (fold_left entry_effect es p).
Proof.
  induction es as [|e es IH]; intros tail p Hs Hf.
  - reflexivity.
  - simpl in Hs, Hf. apply andb_true_iff in Hs as [Hs Hss].
    apply andb_true_iff in Hf as [Hf Hfs].
    cbn [file_of fold_left]. rewrite app_assoc_s.
    destruct e as [key value | text].
    + rewrite read_all_kv by assumption. now apply IH.
    + cbn [entry_line]. rewrite app_assoc_s.
      change (nl ++ (file_of es ++ tail))%string with (String newline (file_of es ++ tail)).
      cbn [entry_shaped] in Hs. apply andb_true_iff in Hs as [He Hn].
      apply negb_true_iff in He, Hn.
      rewrite (read_all_other (S (String.length text))) by (assumption || lia).
      now apply IH.
Qed.

(** X1.  The last line of the file needs no newline: an entry [key=value]
    that ends with the file is stored like the others. *)
Theorem loadConfigFile_last_line_open (es : list entry) (key value : string)
        (p : ConnectionPool) :
  forallb entry_shaped es = true -> forallb entry_fits es = true ->
  entry_shaped (kv key value) = true ->
  mem nul (key ++ "=" ++ value)%string = false ->
  (String.length (key ++ "=" ++ value)%string <= 1023)%nat ->
  loadConfigFile (Some (file_of es ++ (key ++ "=" ++ value))%string) p
  = (true, store key value (fold_left entry_effect es p), []).
Proof.
  intros Hs Hf Hkv Hnul Hlen.
  cbn [entry_shaped] in Hkv.
  apply andb_true_iff in Hkv as [Hkv Hv]. apply andb_true_iff in Hkv as [Hk Hkn].
  apply negb_true_iff in Hk, Hkn, Hv.
  unfold loadConfigFile, fopen. cbn [option_map].
  rewrite read_all_entries_then by assumption.
  now rewrite read_all_kv_open.
Qed.

Lemma loadConfigFile_last_line_open_witness :
  loadConfigFile (Some (file_of [kv "ip" "127.0.0.1"] ++ ("maxSize" ++ "=" ++ "2"))%string)
    static_pool
  = (true, store "maxSize" "2" (fold_left entry_effect [kv "ip" "127.0.0.1"] static_pool), []).
Proof.
  apply (loadConfigFile_last_line_open [kv "ip" "127.0.0.1"] "maxSize" "2" static_pool
           eq_refl eq_refl eq_refl eq_refl).
  apply Nat.leb_le. vm_compute. reflexivity.
Defined.





(** X4.  When a key occurs twice the later value is the one that stays, and
    entries with different keys can come in either order. *)
Theorem store_last_wins (k1 k2 v1 v2 : string) (p : ConnectionPool) :
  store k1 v2 (store k1 v1 p) = store k1 v2 p
  /\ (k1 <> k2 -> store k1 v1 (store k2 v2 p) = store k2 v2 (store k1 v1 p)).
Proof.
  split.
  - unfold store.
    repeat match goal with
           | |- context [String.eqb k1 ?k] => destruct (String.eqb_spec k1 k) as [->|_]
           end; reflexivity.
  - intros Hne. unfold store.
    repeat match goal with
           | |- context [String.eqb k1 ?k] => destruct (String.eqb_spec k1 k) as [->|_]
           end;
      repeat match goal with
             | |- context [String.eqb k2 ?k] => destruct (String.eqb_spec k2 k) as [->|_]
             end;
      try reflexivity; exfalso; apply Hne; reflexivity.
Qed.

Lemma store_last_wins_witness :
  store "ip" "10.0.0.1" (store "port" "3306" static_pool)
  = store "port" "3306" (store "ip" "10.0.0.1" static_pool).
Proof.
  apply (proj2 (store_last_wins "ip" "port" "10.0.0.1" "3306" static_pool)).
  discriminate.
Defined.



(** X6.  The [while (!feof(pf))] loop and read errors.  On a file that is
    read without error the loop ends: each turn takes characters off the
    stream or meets the end of the file, so within two turns more than the
    file has characters [loadConfigFile] has returned, with true.  When the
    device fails once the characters are used up, [fgets] returns without
    setting the end-of-file indicator, [feof] stays false, and
    [loadConfigFile] does not return, however many turns it is given. *)
Theorem loadConfigFile_loop_ends (content : string) (p : ConnectionPool) :
  (forall turns : nat,
      (String.length content + 2 <= turns)%nat ->
      loadConfigFile_within turns (Some (on_device content false false)) p
      = Some (loadConfigFile (Some content) p))
  /\ (forall turns : nat,
         loadConfigFile_within turns (Some (on_device content false true)) p = None).
Proof.
  split; intros turns.
  - intros H. unfold loadConfigFile_within, loadConfigFile, fopen. cbn [option_map].
    rewrite read_lines_ends by (reflexivity || (cbn [rest]; lia)). reflexivity.
  - unfold loadConfigFile_within. now rewrite read_lines_failing.
Qed.

Lemma loadConfigFile_loop_ends_witness :
  loadConfigFile_within 200 (Some (on_device mysql_ini false false)) static_pool
  = Some (loadConfigFile (Some mysql_ini) static_pool).
Proof.
  apply (proj1 (loadConfigFile_loop_ends mysql_ini static_pool) 200%nat).
  apply Nat.leb_le. vm_compute. reflexivity.
Defined.

End ConfigMore.

(** ** The pool over its lifetime *)

Module Lifecycle.
Import PoolFacts.

(** What each critical section that runs to its end does to the process. *)
Lemma fire_cases (a : action) (s s' : System) :
  fire a s = Some s' ->
  (exists id w,
      a = produce id w /\ started producer s = true /\ _connectionQue (pool s) = []
      /\ handles s' = handles s /\ trace s' = trace s ++ [notify_all]
      /\ ((_connectionCnt (pool s) < _maxSize (pool s)
           /\ pool s' = set_que [create id w] (_connectionCnt (pool s) + 1) (pool s))
          \/ (_maxSize (pool s) <= _connectionCnt (pool s) /\ pool s' = pool s)))
  \/ (exists wake c q,
         a = acquire wake /\ _connectionQue (pool s) = c :: q
         /\ pool s' = set_que q (_connectionCnt (pool s)) (pool s)
         /\ handles s' = c :: handles s /\ trace s' = trace s ++ [notify_all])
  \/ (a = acquire (Some timeout) /\ _connectionQue (pool s) = []
      /\ pool s' = pool s /\ handles s' = handles s
      /\ trace s' = trace s ++ [LOG timeout_message])
  \/ (exists clock pcon,
         a = release clock pcon /\ drop_handle pcon (handles s) = Some (handles s')
         /\ pool s' = set_que (_connectionQue (pool s) ++ [refreshAliveTime clock pcon])
                        (_connectionCnt (pool s)) (pool s)
         /\ trace s' = trace s ++ [])
  \/ (exists clock q' cnt' ev,
         a = scan clock /\ started scanner s = true
         /\ scanner_loop clock (_initSize (pool s)) (_maxIdleTime (pool s))
              (_connectionQue (pool s)) (_connectionCnt (pool s)) = Some (q', cnt', ev)
         /\ pool s' = set_que q' cnt' (pool s)
         /\ handles s' = handles s /\ trace s' = trace s ++ ev).
Proof.
  destruct a as [id w | wake | clock pcon | clock]; cbn [fire].
  - destruct (started producer s) eqn:St; [|discriminate].
    unfold produceConnectionTask.
    destruct (_connectionQue (pool s)) eqn:Q; [|discriminate].
    intros H. left. exists id, w.
    destruct (Z.ltb_spec (_connectionCnt (pool s)) (_maxSize (pool s))) as [Hlt|Hge];
      injection H as <-; cbn [pool handles trace]; repeat split.
    + left. split; [assumption|]. unfold cnt_incr, que_push. cbn. now rewrite Q.
    + right. now split.
  - assert (T : forall c q, _connectionQue (pool s) = c :: q ->
                  Some (mkSystem (que_pop (pool s)) (hold (sp c) (handles s))
                          (trace s ++ [notify_all])) = Some s' ->
                  exists wake' c q,
                    acquire wake = acquire wake' /\ _connectionQue (pool s) = c :: q
                    /\ pool s' = set_que q (_connectionCnt (pool s)) (pool s)
                    /\ handles s' = c :: handles s /\ trace s' = trace s ++ [notify_all]).
    { intros c q Q H. injection H as <-. exists wake, c, q. cbn.
      unfold que_pop. rewrite Q. now repeat split. }
    destruct wake as [[|]|]; cbn [getConnection_wake]; unfold getConnection_loop;
      destruct (_connectionQue (pool s)) as [|c q] eqn:Q; try discriminate; intros H.
    + right; left. now apply (T c q).
    + right; right; left. injection H as <-. now repeat split.
    + right; left. now apply (T c q).
    + right; left. now apply (T c q).
  - destruct (drop_handle pcon (handles s)) as [hs|] eqn:D; [|discriminate].
    cbn. intros H. injection H as <-. right; right; right; left.
    exists clock, pcon. now repeat split.
  - destruct (started scanner s) eqn:St; [|discriminate].
    unfold scannerConnectionTask.
    destruct (scanner_loop clock (_initSize (pool s)) (_maxIdleTime (pool s))
                (_connectionQue (pool s)) (_connectionCnt (pool s)))
      as [[[q cnt] ev]|] eqn:E; [|discriminate].
    intros H. injection H as <-. right; right; right; right.
    exists clock, q, cnt, ev. now repeat split.
Qed.

(** The scanner's cycle pops a prefix of the queue: the connections it
    deletes, in order, each of them expired; the counter goes down by their
    number; and the cycle stops at the floor or at a front that has not
    expired. *)
Lemma scanner_loop_prefix (clock initSize maxIdleTime : Z) (q : list Connection) :
  forall (cnt : Z) (q' : list Connection) (cnt' : Z) (ev : list event),
    scanner_loop clock initSize maxIdleTime q cnt = Some (q', cnt', ev) ->
    exists gone : list Connection,
      q = gone ++ q' /\ ev = map delete gone
      /\ cnt' = cnt - Z.of_nat (List.length gone)
      /\ forallb (expired clock maxIdleTime) gone = true
      /\ (gone <> [] -> initSize <= cnt')
      /\ (cnt' <= initSize
          \/ exists c rest, q' = c :: rest /\ expired clock maxIdleTime c = false).
Proof.
  induction q as [|c q IH]; intros cnt q' cnt' ev H; cbn [scanner_loop] in H.
  - destruct (Z.gtb_spec cnt initSize) as [Hgt|Hle]; [discriminate|].
    injection H as <- <- <-. exists []. cbn. repeat split; try tauto; try lia.
  - destruct (Z.gtb_spec cnt initSize) as [Hgt|Hle].
    + fold (expired clock maxIdleTime c) in H.
      destruct (expired clock maxIdleTime c) eqn:X.
      * destruct (scanner_loop clock initSize maxIdleTime q (cnt - 1))
          as [[[q1 cnt1] ev1]|] eqn:E; [|discriminate].
        injection H as <- <- <-.
        destruct (IH _ _ _ _ E) as (gone & -> & -> & -> & Hx & Hfloor & Hstop).
        exists (c :: gone). cbn [app map forallb List.length]. rewrite X, Hx.
        repeat split; try lia.
        -- intros _. destruct gone as [|g gone]; [cbn; lia | apply Hfloor; discriminate].
        -- exact Hstop.
      * injection H as <- <- <-. exists []. cbn. repeat split; try tauto; try lia.
        right. now exists c, q.
    + injection H as <- <- <-. exists []. cbn. repeat split; try tauto; try lia.
Qed.

Lemma drop_handle_spec (pcon : Connection) (hs : list Connection) :
  forall hs' : list Connection,
    drop_handle pcon hs = Some hs' ->
    exists before after p',
      hs = before ++ p' :: after /\ hs' = before ++ after
      /\ conn_id p' = conn_id pcon.
Proof.
  induction hs as [|h hs IH]; intros hs' H; cbn [drop_handle] in H; [discriminate|].
  destruct (Connection_eqb pcon h) eqn:E.
  - injection H as <-. exists [], hs, h. repeat split.
    unfold Connection_eqb in E. apply andb_true_iff in E as [E _].
    apply andb_true_iff in E as [E _]. apply Nat.eqb_eq in E. now symmetry.
  - destruct (drop_handle pcon hs) as [hs1|]; [|discriminate].
    injection H as <-.
    destruct (IH _ eq_refl) as (before & after & p' & -> & -> & Hid).
    exists (h :: before), after, p'. now repeat split.
Qed.

Lemma loaded_empty (content : string) :
  _connectionQue (loaded content) = [] /\ _connectionCnt (loaded content) = 0.
Proof.
  unfold loaded, loadConfigFile, fopen. cbn [option_map fst snd].
  apply (Bounded.read_all_keeps_que (Stdio.mkFILE content false) static_pool).
Qed.

(** X7.  With a configuration file the constructor makes [_initSize]
    connections one after the other (none when [_initSize] is not
    positive), queues them in the order of their making whether or not
    [connect] succeeded, counts them, and only then detaches the producer
    and the scanner. *)
Theorem ctor_warm_up (content : string) (world : nat -> creation) :
  config (fst (ConnectionPool_ctor (Some content) world)) = config (loaded content)
  /\ _connectionQue (fst (ConnectionPool_ctor (Some content) world))
     = map (fun k => mkConnection k (connect_ok (world k)) (clock_at (world k)))
         (seq 0 (Z.to_nat (_initSize (loaded content))))
  /\ _connectionCnt (fst (ConnectionPool_ctor (Some content) world))
     = Z.max 0 (_initSize (loaded content))
  /\ snd (ConnectionPool_ctor (Some content) world)
     = [thread_detach producer; thread_detach scanner].
Proof.
  destruct (loaded_empty content) as [Hq Hc].
  unfold ConnectionPool_ctor.
  change (loadConfigFile (Some content) static_pool) with (true, loaded content, @nil event).
  cbn [negb fst snd app].
  destruct (warm_up_spec (Z.to_nat (_initSize (loaded content))) 0 world (loaded content))
    as (Hcfg & Hn & Hque).
  rewrite Hcfg, Hn, Hque, Hq, Hc. repeat split. lia.
Qed.

(** The live count is the number of live connections: the idle ones and
    the ones that callers hold. *)
Lemma fire_conserved (a : action) (s s' : System) :
  fire a s = Some s' ->
  _connectionCnt (pool s) = Z.of_nat (List.length (live s)) ->
  _connectionCnt (pool s') = Z.of_nat (List.length (live s')).
Proof.
  intros F. unfold live. rewrite !length_app.
  destruct (fire_cases _ _ _ F)
    as [(id & w & _ & _ & Q & Hh & _ & [[_ Hp] | [_ Hp]])
       | [(wake & c & q & _ & Q & Hp & Hh & _)
         | [(_ & Q & Hp & Hh & _)
           | [(clock & pcon & _ & D & Hp & _)
             | (clock & q' & cnt' & ev & _ & _ & E & Hp & Hh & _)]]]];
    rewrite ?Hp, ?Hh, ?Q; cbn; intros H; try lia.
  - destruct (drop_handle_spec _ _ _ D) as (before & after & p' & E1 & E2 & _).
    rewrite E1 in H. rewrite E2. rewrite !length_app in *. cbn in *. lia.
  - destruct (scanner_loop_prefix _ _ _ _ _ _ _ _ E) as (gone & Eq & _ & -> & _).
    rewrite Eq, length_app in H. lia.
Qed.

Lemma run_conserved (acts : list action) :
  forall s s' : System,
    run acts s = Some s' ->
    _connectionCnt (pool s) = Z.of_nat (List.length (live s)) ->
    _connectionCnt (pool s') = Z.of_nat (List.length (live s')).
Proof.
  induction acts as [|a acts IH]; intros s s' R H.
  - now injection R as <-.
  - cbn [run] in R. destruct (fire a s) as [s1|] eqn:F; [|discriminate].
    apply (IH _ _ R). eapply fire_conserved; eassumption.
Qed.

Lemma boot_conserved (mysql_ini : option string) (world : nat -> creation) :
  _connectionCnt (pool (boot mysql_ini world))
  = Z.of_nat (List.length (live (boot mysql_ini world)))
  /\ handles (boot mysql_ini world) = [].
Proof.
  destruct (Bounded.ctor_count mysql_ini world) as [_ Hq].
  unfold live. rewrite Bounded.boot_pool.
  assert (Hh : handles (boot mysql_ini world) = []).
  { unfold boot. now destruct (ConnectionPool_ctor mysql_ini world). }
  rewrite Hh, app_nil_r. split; [now symmetry | reflexivity].
Qed.

(** X8.  In every state the process reaches, [_connectionCnt] is the number
    of connections in the queue plus the number of connections that callers
    hold: no connection is lost or counted twice on the way through
    [getConnection], the deleter, the producer and the scanner. *)
Theorem live_count_is_idle_plus_held (mysql_ini : option string) (world : nat -> creation)
        (s : System) :
  reachable (boot mysql_ini world) s ->
  _connectionCnt (pool s)
  = Z.of_nat (List.length (_connectionQue (pool s))) + Z.of_nat (List.length (handles s)).
Proof.
  intros [acts R].
  pose proof (run_conserved _ _ _ R (proj1 (boot_conserved mysql_ini world))) as H.
  unfold live in H. rewrite length_app in H. lia.
Qed.

Lemma live_count_is_idle_plus_held_witness :
  _connectionCnt (pool both_held)
  = Z.of_nat (List.length (_connectionQue (pool both_held)))
    + Z.of_nat (List.length (handles both_held)).
Proof.
  apply (live_count_is_idle_plus_held (Some mysql_ini) calm both_held).
  exists both_taken. vm_compute. reflexivity.
Defined.

(** X9.  With the floor at or below the ceiling and the ceiling not
    negative, callers never hold more than [_maxSize] connections at a
    time, and the queue never holds more than that either. *)
Theorem at_most_maxSize_held (mysql_ini : option string) (world : nat -> creation)
        (s : System) :
  _initSize (pool (boot mysql_ini world)) <= _maxSize (pool (boot mysql_ini world)) ->
  0 <= _maxSize (pool (boot mysql_ini world)) ->
  reachable (boot mysql_ini world) s ->
  Z.of_nat (List.length (handles s)) <= _maxSize (pool s)
  /\ Z.of_nat (List.length (_connectionQue (pool s))) <= _maxSize (pool s).
Proof.
  intros Him Hm [acts R].
  pose proof (run_conserved _ _ _ R (proj1 (boot_conserved mysql_ini world))) as H.
  unfold live in H. rewrite length_app in H.
  destruct (Bounded.ctor_count mysql_ini world) as [Hc _].
  rewrite <- Bounded.boot_pool in Hc.
  assert (B : bounded (boot mysql_ini world)) by (unfold bounded; lia).
  destruct (Bounded.run_bounded _ _ _ R B) as [B' _].
  unfold bounded in B'. lia.
Qed.

Lemma at_most_maxSize_held_witness :
  Z.of_nat (List.length (handles both_held)) <= _maxSize (pool both_held)
  /\ Z.of_nat (List.length (_connectionQue (pool both_held))) <= _maxSize (pool both_held).
Proof.
  apply (at_most_maxSize_held (Some mysql_ini) calm both_held).
  - vm_compute. discriminate.
  - vm_compute. discriminate.
  - exists both_taken. vm_compute. reflexivity.
Defined.

End Lifecycle.

(** ** Eviction *)

Module Eviction.
Import PoolFacts Lifecycle.

Lemma scanner_loop_none (clock initSize maxIdleTime : Z) (q : list Connection) :
  forall cnt : Z,
    scanner_loop clock initSize maxIdleTime q cnt = None
    <-> forallb (expired clock maxIdleTime) q = true
        /\ initSize < cnt - Z.of_nat (List.length q).
Proof.
  induction q as [|c q IH]; intros cnt; cbn [scanner_loop forallb List.length].
  - destruct (Z.gtb_spec cnt initSize) as [Hgt|Hle].
    + split; [|reflexivity]. intros _. split; [reflexivity | simpl; lia].
    + split; [discriminate|]. intros [_ H]. simpl in H. lia.
  - fold (expired clock maxIdleTime c).
    destruct (Z.gtb_spec cnt initSize) as [Hgt|Hle].
    + destruct (expired clock maxIdleTime c) eqn:X; cbn [andb].
      * specialize (IH (cnt - 1)).
        destruct (scanner_loop clock initSize maxIdleTime q (cnt - 1)) as [[[q1 c1] e1]|].
        -- split; [discriminate|]. intros [Hx Hn].
           destruct IH as [_ IH].
           assert (E : Some (q1, c1, e1) = None) by (apply IH; split; [exact Hx | lia]).
           discriminate E.
        -- split; [|reflexivity]. intros _. destruct IH as [IH _].
           destruct (IH eq_refl) as [Hx Hn]. split; [exact Hx | lia].
      * split; [discriminate | intros [H _]; discriminate].
    + split; [discriminate|]. intros [_ H]. lia.
Qed.

(** X10.  The scanner leaves defined behaviour exactly when every
    connection in the queue passes its test (idle for at least the [int]
    that [_maxIdleTime * 1000] leaves) and the counter exceeds [_initSize]
    by more than the queue holds: popping them all still leaves the loop
    condition true, and [front()] is called on the empty queue. *)
Theorem scanner_undefined_iff (clock : Z) (p : ConnectionPool) :
  scannerConnectionTask clock p = undefined
  <-> forallb (expired clock (_maxIdleTime p)) (_connectionQue p) = true
      /\ _initSize p < _connectionCnt p - Z.of_nat (List.length (_connectionQue p)).
Proof.
  unfold scannerConnectionTask. rewrite <- scanner_loop_none.
  destruct (scanner_loop clock (_initSize p) (_maxIdleTime p) (_connectionQue p)
              (_connectionCnt p)) as [[[q cnt] ev]|]; split; try discriminate; reflexivity.
Qed.

(** X11.  As long as callers hold no more than [_initSize] connections the
    scanner's cycle runs to its end in every state the process reaches, and
    it cannot while they hold more and everything in the queue has
    expired. *)
Theorem scanner_defined_while_few_held (mysql_ini : option string) (world : nat -> creation)
        (s : System) (clock : Z) :
  reachable (boot mysql_ini world) s ->
  (Z.of_nat (List.length (handles s)) <= _initSize (pool s) ->
   scannerConnectionTask clock (pool s) <> undefined)
  /\ (_initSize (pool s) < Z.of_nat (List.length (handles s)) ->
      forallb (expired clock (_maxIdleTime (pool s))) (_connectionQue (pool s)) = true ->
      scannerConnectionTask clock (pool s) = undefined).
Proof.
  intros [acts R].
  pose proof (run_conserved _ _ _ R (proj1 (boot_conserved mysql_ini world))) as H.
  unfold live in H. rewrite length_app in H.
  unfold scannerConnectionTask.
  pose proof (scanner_loop_none clock (_initSize (pool s)) (_maxIdleTime (pool s))
                (_connectionQue (pool s)) (_connectionCnt (pool s))) as N.
  destruct (scanner_loop clock (_initSize (pool s)) (_maxIdleTime (pool s))
              (_connectionQue (pool s)) (_connectionCnt (pool s))) as [[[q cnt] ev]|].
  - split; [discriminate|]. intros Hh Hx.
    destruct N as [_ N].
    assert (E : Some (q, cnt, ev) = None) by (apply N; split; [exact Hx | lia]).
    discriminate E.
  - split; [|reflexivity]. intros Hh _.
    destruct N as [N _]. destruct (N eq_refl) as [_ Hn]. lia.
Qed.

Lemma scanner_defined_while_few_held_witness :
  scannerConnectionTask 100000 (pool started_pool) <> undefined
  /\ scannerConnectionTask 100000 (pool both_held) = undefined.
Proof.
  split.
  - apply (proj1 (scanner_defined_while_few_held (Some mysql_ini) calm started_pool 100000
                    (ex_intro _ [] eq_refl))).
    vm_compute. discriminate.
  - apply (proj2 (scanner_defined_while_few_held (Some mysql_ini) calm both_held 100000
                    (ex_intro _ both_taken eq_refl))).
    + vm_compute. reflexivity.
    + vm_compute. reflexivity.
Defined.

Lemma NoDup_app_tail {A : Type} (l1 l2 : list A) : NoDup (l1 ++ l2) -> NoDup l2.
Proof.
  induction l1 as [|x l1 IH]; cbn; [tauto|]. intros H. inversion H. auto.
Qed.

Lemma NoDup_app_disjoint {A : Type} (l1 l2 : list A) :
  NoDup (l1 ++ l2) -> forall x, In x l1 -> ~ In x l2.
Proof.
  induction l1 as [|y l1 IH]; cbn; [tauto|]. intros H x [->|Hx] Hin.
  - inversion H as [|? ? Hn _]. apply Hn. apply in_or_app. now right.
  - inversion H. eapply IH; eassumption.
Qed.

(** X12.  One cycle of the scanner that runs to its end deletes a prefix of
    the queue and nothing else: the connections it deletes were at the
    front, in that order, each had passed the scanner's test (idle for at
    least the [int] that [_maxIdleTime * 1000] leaves), the counter drops
    by their number and not below [_initSize], what
    callers hold is untouched, and the cycle stops at the floor or at a
    front that has not expired.  Where no two live connections are the same
    object, none of the deleted ones is in the queue or in a caller's hands
    afterwards. *)
Theorem scan_deletes_expired_prefix (clock : Z) (s s' : System) :
  fire (scan clock) s = Some s' ->
  exists gone : list Connection,
    _connectionQue (pool s) = gone ++ _connectionQue (pool s')
    /\ trace s' = trace s ++ map delete gone
    /\ _connectionCnt (pool s') = _connectionCnt (pool s) - Z.of_nat (List.length gone)
    /\ forallb (expired clock (_maxIdleTime (pool s))) gone = true
    /\ (gone <> [] -> _initSize (pool s) <= _connectionCnt (pool s'))
    /\ (_connectionCnt (pool s') <= _initSize (pool s)
        \/ exists c rest, _connectionQue (pool s') = c :: rest
                          /\ expired clock (_maxIdleTime (pool s)) c = false)
    /\ handles s' = handles s
    /\ config (pool s') = config (pool s)
    /\ (NoDup (live_ids s) ->
        forall c, In c gone -> ~ In (conn_id c) (live_ids s')).
Proof.
  intros F.
  destruct (fire_cases _ _ _ F)
    as [(id & w & Ha & _) | [(wake & c & q & Ha & _) | [(Ha & _)
       | [(clock1 & pcon & Ha & _) | (clock1 & q' & cnt' & ev & Ha & _ & E & Hp & Hh & Ht)]]]];
    try discriminate.
  injection Ha as <-.
  destruct (scanner_loop_prefix _ _ _ _ _ _ _ _ E) as (gone & Hq & -> & -> & Hx & Hfl & Hstop).
  exists gone. rewrite Hp, Hh, Ht. cbn [set_que _connectionQue _connectionCnt].
  repeat split; try assumption.
  intros Hnd c Hin. unfold live_ids, live in *. rewrite Hp, Hh. cbn [set_que _connectionQue].
  rewrite Hq, <- app_assoc, map_app in Hnd.
  apply (NoDup_app_disjoint _ _ Hnd). now apply in_map.
Qed.

Lemma scan_deletes_expired_prefix_witness :
  exists gone : list Connection,
    _connectionQue (pool (mkSystem (pool released) [] [thread_detach scanner]))
    = gone ++ _connectionQue (set_que [] 1 exhausted_pool)
    /\ gone = [mkConnection 0 true 50].
Proof.
  destruct (scan_deletes_expired_prefix 100000
              (mkSystem (pool released) [] [thread_detach scanner])
              (mkSystem (set_que [] 1 exhausted_pool) []
                 [thread_detach scanner; delete (mkConnection 0 true 50)])
              eq_refl) as (gone & Hq & _).
  exists gone. split; [exact Hq|].
  cbn in Hq. rewrite app_nil_r in Hq. now symmetry.
Defined.

(** X13.  When every connection is back in the queue and has expired, one
    cycle brings the pool down to [_initSize] connections exactly: it
    deletes the [_connectionCnt - _initSize] connections at the front and
    keeps the ones released last. *)
Theorem scan_shrinks_to_initSize (clock : Z) (p : ConnectionPool) :
  forallb (expired clock (_maxIdleTime p)) (_connectionQue p) = true ->
  _connectionCnt p = Z.of_nat (List.length (_connectionQue p)) ->
  0 <= _initSize p <= _connectionCnt p ->
  scannerConnectionTask clock p
  = done tt
      (set_que (skipn (Z.to_nat (_connectionCnt p - _initSize p)) (_connectionQue p))
         (_initSize p) p)
      (map delete (firstn (Z.to_nat (_connectionCnt p - _initSize p)) (_connectionQue p))).
Proof.
  intros Hx Hc Hi. unfold scannerConnectionTask.
  assert (L : forall q cnt,
             forallb (expired clock (_maxIdleTime p)) q = true ->
             cnt - _initSize p <= Z.of_nat (List.length q) -> _initSize p <= cnt ->
             scanner_loop clock (_initSize p) (_maxIdleTime p) q cnt
             = Some (skipn (Z.to_nat (cnt - _initSize p)) q, _initSize p,
                     map delete (firstn (Z.to_nat (cnt - _initSize p)) q))).
  { induction q as [|c q IH]; intros cnt Hq Hlen Hle; cbn [scanner_loop].
    - simpl in Hlen. assert (cnt = _initSize p) as -> by lia.
      rewrite Z.sub_diag. destruct (Z.gtb_spec (_initSize p) (_initSize p)); [lia|].
      reflexivity.
    - cbn [forallb] in Hq. apply andb_true_iff in Hq as [Hc1 Hq].
      destruct (Z.gtb_spec cnt (_initSize p)) as [Hgt|Hnot].
      + fold (expired clock (_maxIdleTime p) c). rewrite Hc1.
        rewrite IH; [| assumption | cbn [List.length] in Hlen; lia | lia].
        replace (Z.to_nat (cnt - _initSize p)) with (S (Z.to_nat (cnt - 1 - _initSize p)))
          by lia.
        reflexivity.
      + assert (cnt = _initSize p) as -> by lia.
        rewrite Z.sub_diag. reflexivity. }
  rewrite L; [reflexivity | assumption | lia | lia].
Qed.

Lemma scan_shrinks_to_initSize_witness :
  scannerConnectionTask 100000
    (set_que [mkConnection 0 true 50; mkConnection 7 true 60] 2 exhausted_pool)
  = done tt (set_que [mkConnection 7 true 60] 1 exhausted_pool)
      [delete (mkConnection 0 true 50)].
Proof.
  apply (scan_shrinks_to_initSize 100000
           (set_que [mkConnection 0 true 50; mkConnection 7 true 60] 2 exhausted_pool)).
  - vm_compute. reflexivity.
  - reflexivity.
  - vm_compute. split; discriminate.
Defined.

Lemma scanner_undefined_iff_witness :
  scannerConnectionTask 100000 exhausted_pool = undefined.
Proof.
  apply (proj2 (scanner_undefined_iff 100000 exhausted_pool)).
  split; [reflexivity | vm_compute; reflexivity].
Defined.

(** X20.  Returning a connection resets its idle time: a cycle of the
    scanner that comes after a release by less than the scanner's
    threshold, the [int] that [_maxIdleTime * 1000] leaves, does not remove
    the released connection from the queue: it is still at the tail, where
    the deleter put it. *)
Theorem released_connection_survives_scan (clock clock' : Z) (pcon : Connection)
        (s s1 s2 : System) :
  fire (release clock pcon) s = Some s1 ->
  fire (scan clock') s1 = Some s2 ->
  clock' - clock < to_int (_maxIdleTime (pool s) * 1000) ->
  exists front : list Connection,
    _connectionQue (pool s2) = front ++ [refreshAliveTime clock pcon].
Proof.
  intros F1 F2 Hyoung.
  destruct (fire_cases _ _ _ F1)
    as [(id & w & Ha & _) | [(wake & c & q & Ha & _) | [(Ha & _)
       | [(clock1 & pcon1 & Ha & _ & Hp1 & _) | (clock1 & q' & cnt' & ev & Ha & _)]]]];
    try discriminate.
  injection Ha as <- <-.
  destruct (fire_cases _ _ _ F2)
    as [(id & w & Ha & _) | [(wake & c & q & Ha & _) | [(Ha & _)
       | [(clock1 & pcon1 & Ha & _) | (clock1 & q' & cnt' & ev & Ha & _ & E & Hp2 & _)]]]];
    try discriminate.
  injection Ha as <-.
  rewrite Hp1 in E. cbn [set_que _connectionQue _connectionCnt _initSize _maxIdleTime] in E.
  destruct (scanner_loop_prefix _ _ _ _ _ _ _ _ E) as (gone & Hq & _ & _ & Hx & _).
  rewrite Hp2. cbn [set_que _connectionQue].
  assert (Hrc : expired clock' (_maxIdleTime (pool s)) (refreshAliveTime clock pcon) = false).
  { unfold expired, getAliveeTime. cbn [refreshAliveTime _alivetime].
    rewrite Z.geb_leb. apply Z.leb_gt. lia. }
  destruct (exists_last (l := q')) as (front & x & ->).
  - intros ->. rewrite app_nil_r in Hq. subst gone.
    rewrite forallb_app in Hx. cbn [forallb] in Hx. rewrite Hrc in Hx.
    rewrite andb_false_r in Hx. discriminate.
  - rewrite app_assoc in Hq. apply app_inj_tail in Hq as [_ <-]. now exists front.
Qed.

Lemma released_connection_survives_scan_witness :
  exists front : list Connection,
    _connectionQue (set_que [mkConnection 0 true 50] 2 exhausted_pool)
    = front ++ [refreshAliveTime 50 (mkConnection 0 true 0)].
Proof.
  apply (released_connection_survives_scan 50 1000 (mkConnection 0 true 0)
           (mkSystem exhausted_pool [mkConnection 0 true 0] [thread_detach scanner])
           (mkSystem (set_que [mkConnection 0 true 50] 2 exhausted_pool) []
              [thread_detach scanner])
           (mkSystem (set_que [mkConnection 0 true 50] 2 exhausted_pool) []
              [thread_detach scanner])).
  - reflexivity.
  - vm_compute. reflexivity.
  - vm_compute. reflexivity.
Defined.

End Eviction.

(** ** The order of the queue *)

Module QueueOrder.
Import PoolFacts Lifecycle.

Lemma sorted_tail (l1 l2 : list Z) :
  StronglySorted Z.le (l1 ++ l2) -> StronglySorted Z.le l2.
Proof.
  induction l1 as [|x l1 IH]; cbn; [tauto|].
  intros H. apply StronglySorted_inv in H as [H _]. auto.
Qed.

Lemma sorted_snoc (l : list Z) (x : Z) :
  StronglySorted Z.le l -> Forall (fun y => y <= x) l -> StronglySorted Z.le (l ++ [x]).
Proof.
  induction l as [|y l IH]; cbn; intros Hs Hf.
  - repeat constructor.
  - apply StronglySorted_inv in Hs as [Hs Hy]. inversion Hf as [|? ? Hyx Hf']; subst.
    constructor; [auto|].
    apply Forall_app. split; [exact Hy | now repeat constructor].
Qed.

Lemma Forall_tail (P : Z -> Prop) (l1 l2 : list Z) : Forall P (l1 ++ l2) -> Forall P l2.
Proof. intros H. now apply Forall_app in H. Qed.

(** The queue is ordered by idle-start time, and no stamp in it is later
    than [t]. *)
Lemma fire_ordered (a : action) (s s' : System) (t : Z) :
  fire a s = Some s' ->
  StronglySorted Z.le (stamps (_connectionQue (pool s))) ->
  Forall (fun y => y <= t) (stamps (_connectionQue (pool s))) ->
  match stamp_clock a with
  | Some c =>
      t <= c ->
      StronglySorted Z.le (stamps (_connectionQue (pool s')))
      /\ Forall (fun y => y <= c) (stamps (_connectionQue (pool s')))
  | None =>
      StronglySorted Z.le (stamps (_connectionQue (pool s')))
      /\ Forall (fun y => y <= t) (stamps (_connectionQue (pool s')))
  end.
Proof.
  intros F Hs Hf.
  destruct (fire_cases _ _ _ F)
    as [(id & w & -> & _ & Q & _ & _ & [[_ Hp] | [_ Hp]])
       | [(wake & c & q & -> & Q & Hp & _)
         | [(-> & Q & Hp & _)
           | [(clock & pcon & -> & _ & Hp & _)
             | (clock & q' & cnt' & ev & -> & _ & E & Hp & _)]]]];
    cbn [stamp_clock]; rewrite Hp; cbn [set_que _connectionQue].
  - intros _. cbn. split; repeat constructor. lia.
  - intros _. rewrite Q. cbn. split; constructor.
  - rewrite Q in Hs, Hf. cbn in Hs, Hf.
    apply StronglySorted_inv in Hs as [Hs _]. inversion Hf. now split.
  - now split.
  - intros Ht. unfold stamps. rewrite map_app. cbn [map refreshAliveTime _alivetime].
    split.
    + apply sorted_snoc; [exact Hs|]. eapply Forall_impl; [|exact Hf]. cbn. intros; lia.
    + apply Forall_app. split.
      * eapply Forall_impl; [|exact Hf]. cbn. intros; lia.
      * repeat constructor. lia.
  - destruct (scanner_loop_prefix _ _ _ _ _ _ _ _ E) as (gone & Hq & _).
    rewrite Hq in Hs, Hf. unfold stamps in Hs, Hf. rewrite map_app in Hs, Hf.
    split; [eapply sorted_tail | eapply Forall_tail]; eassumption.
Qed.

Lemma run_ordered (acts : list action) :
  forall (s s' : System) (t : Z),
    run acts s = Some s' -> monotone_from t acts ->
    StronglySorted Z.le (stamps (_connectionQue (pool s))) ->
    Forall (fun y => y <= t) (stamps (_connectionQue (pool s))) ->
    StronglySorted Z.le (stamps (_connectionQue (pool s'))).
Proof.
  induction acts as [|a acts IH]; intros s s' t R M Hs Hf.
  - now injection R as <-.
  - cbn [run] in R. destruct (fire a s) as [s1|] eqn:F; [|discriminate].
    pose proof (fire_ordered _ _ _ t F Hs Hf) as O.
    cbn [monotone_from] in M. destruct (stamp_clock a) as [c|].
    + destruct M as [Htc M]. destruct (O Htc) as [Hs1 Hf1]. eapply IH; eassumption.
    + destruct O as [Hs1 Hf1]. eapply IH; eassumption.
Qed.

Lemma boot_queue (mysql_ini : option string) (world : nat -> creation) :
  exists n : nat,
    _connectionQue (pool (boot mysql_ini world))
    = map (fun k => create k (world k)) (seq 0 n).
Proof.
  rewrite Bounded.boot_pool. unfold ConnectionPool_ctor.
  destruct mysql_ini as [content|].
  - change (loadConfigFile (Some content) static_pool) with (true, loaded content, @nil event).
    cbn [negb fst].
    destruct (warm_up_spec (Z.to_nat (_initSize (loaded content))) 0 world (loaded content))
      as (_ & _ & Hque).
    rewrite Hque, (proj1 (loaded_empty content)).
    now exists (Z.to_nat (_initSize (loaded content))).
  - now exists 0%nat.
Qed.

Lemma warm_stamps_sorted (world : nat -> creation) (t : Z) (n : nat) :
  (forall i j, (i <= j)%nat -> clock_at (world i) <= clock_at (world j)) ->
  (forall i, clock_at (world i) <= t) ->
  forall i : nat,
    StronglySorted Z.le (stamps (map (fun k => create k (world k)) (seq i n)))
    /\ Forall (fun y => y <= t) (stamps (map (fun k => create k (world k)) (seq i n)))
    /\ Forall (fun y => clock_at (world i) <= y)
         (stamps (map (fun k => create k (world k)) (seq i n))).
Proof.
  intros Hm Ht. induction n as [|n IH]; intros i; cbn.
  - repeat split; constructor.
  - destruct (IH (S i)) as (Hs & Hf & Hl).
    assert (Hl' : Forall (fun y => clock_at (world i) <= y)
                    (stamps (map (fun k => create k (world k)) (seq (S i) n)))).
    { eapply Forall_impl; [|exact Hl]. cbn. intros y Hy.
      specialize (Hm i (S i)). lia. }
    repeat split; constructor; auto; lia.
Qed.

(** X14.  If the clock never runs backwards, the queue is ordered by
    idle-start time in every state the process reaches, the oldest stamp at
    the front: the constructor and the producer stamp what they push, the
    deleter stamps what it returns, all push at the tail, and
    [getConnection] and the scanner only take from the front. *)
Theorem queue_ordered_by_idle_start (mysql_ini : option string) (world : nat -> creation)
        (t : Z) (acts : list action) (s : System) :
  (forall i j, (i <= j)%nat -> clock_at (world i) <= clock_at (world j)) ->
  (forall i, clock_at (world i) <= t) ->
  monotone_from t acts ->
  run acts (boot mysql_ini world) = Some s ->
  StronglySorted Z.le (stamps (_connectionQue (pool s))).
Proof.
  intros Hm Ht M R.
  destruct (boot_queue mysql_ini world) as [n Hq].
  destruct (warm_stamps_sorted world t n Hm Ht 0) as (Hs & Hf & _).
  rewrite <- Hq in Hs, Hf.
  eapply run_ordered; eassumption.
Qed.

Lemma queue_ordered_by_idle_start_witness :
  StronglySorted Z.le
    [_alivetime (refreshAliveTime 20 (mkConnection 0 true 0));
     _alivetime (refreshAliveTime 30 (mkConnection 7 false 9))].
Proof.
  apply (queue_ordered_by_idle_start (Some mysql_ini) calm 0
           (both_taken ++ [release 20 (mkConnection 0 true 0);
                           release 30 (mkConnection 7 false 9)])
           (mkSystem
              (set_que [mkConnection 0 true 20; mkConnection 7 false 30] 2 exhausted_pool) []
              [thread_detach producer; thread_detach scanner;
               notify_all; notify_all; notify_all])).
  - intros i j _. cbn. lia.
  - intros i. cbn. lia.
  - cbn. lia.
  - vm_compute. reflexivity.
Defined.

(** X15.  On a queue ordered by idle-start time the scanner's stop at the
    first front that has not expired misses nothing: after a cycle that
    ends above the floor no connection left in the queue has expired. *)
Theorem scan_leaves_no_expired (clock : Z) (p p' : ConnectionPool) (ev : list event) :
  StronglySorted Z.le (stamps (_connectionQue p)) ->
  scannerConnectionTask clock p = done tt p' ev ->
  _initSize p < _connectionCnt p' ->
  forallb (fun c => negb (expired clock (_maxIdleTime p) c)) (_connectionQue p') = true.
Proof.
  intros Hs H Hgt. unfold scannerConnectionTask in H.
  destruct (scanner_loop clock (_initSize p) (_maxIdleTime p) (_connectionQue p)
              (_connectionCnt p)) as [[[q cnt] ev1]|] eqn:E; [|discriminate].
  injection H as <- <-. cbn [set_que _connectionQue _connectionCnt] in *.
  destruct (scanner_loop_prefix _ _ _ _ _ _ _ _ E)
    as (gone & Hq & _ & _ & _ & _ & [Hfloor | (c & rest & -> & Hc)]); [lia|].
  rewrite Hq in Hs. unfold stamps in Hs. rewrite map_app in Hs.
  apply sorted_tail in Hs. cbn [map] in Hs.
  apply StronglySorted_inv in Hs as [_ Hall].
  cbn [forallb]. rewrite Hc. cbn [negb andb].
  apply forallb_forall. intros d Hd.
  rewrite Forall_forall in Hall.
  specialize (Hall (_alivetime d) (in_map _ _ _ Hd)).
  unfold expired, getAliveeTime in *.
  apply negb_true_iff. rewrite Z.geb_leb in Hc |- *.
  apply Z.leb_gt. apply Z.leb_gt in Hc. lia.
Qed.

Lemma scan_leaves_no_expired_witness :
  forallb (fun c => negb (expired 60040 60 c)) [mkConnection 7 true 50] = true.
Proof.
  apply (scan_leaves_no_expired 60040
           (set_que [mkConnection 0 true 10; mkConnection 7 true 50] 3 exhausted_pool)
           (set_que [mkConnection 7 true 50] 2 exhausted_pool)
           [delete (mkConnection 0 true 10)]).
  - cbn. repeat constructor. lia.
  - vm_compute. reflexivity.
  - vm_compute. reflexivity.
Defined.

End QueueOrder.

(** ** Who has a connection *)

Module Ownership.
Import PoolFacts Lifecycle.

Lemma fire_nodup (a : action) (s s' : System) :
  fire a s = Some s' -> fresh_for a s -> NoDup (live_ids s) -> NoDup (live_ids s').
Proof.
  intros F Hfresh Hnd. unfold live_ids, live in *.
  destruct (fire_cases _ _ _ F)
    as [(id & w & -> & _ & Q & Hh & _ & [[_ Hp] | [_ Hp]])
       | [(wake & c & q & -> & Q & Hp & Hh & _)
         | [(-> & Q & Hp & Hh & _)
           | [(clock & pcon & -> & D & Hp & _)
             | (clock & q' & cnt' & ev & -> & _ & E & Hp & Hh & _)]]]];
    rewrite Hp; try rewrite Hh; cbn [set_que _connectionQue].
  - cbn [fresh_for] in Hfresh. unfold live_ids, live in Hfresh.
    rewrite Q in Hfresh, Hnd. cbn in *. now constructor.
  - exact Hnd.
  - rewrite Q in Hnd. eapply Permutation_NoDup; [|exact Hnd].
    apply Permutation_map. apply (Permutation_middle q (handles s) c).
  - exact Hnd.
  - destruct (drop_handle_spec _ _ _ D) as (before & after & p' & E1 & E2 & Hid).
    rewrite E1 in Hnd. rewrite E2.
    eapply Permutation_NoDup; [|exact Hnd].
    rewrite !map_app. cbn [map conn_id refreshAliveTime]. rewrite <- Hid.
    rewrite <- app_assoc. apply Permutation_app_head. cbn [app].
    symmetry. apply Permutation_middle.
  - destruct (scanner_loop_prefix _ _ _ _ _ _ _ _ E) as (gone & Hq & _).
    rewrite Hq, <- app_assoc, map_app in Hnd.
    eapply Eviction.NoDup_app_tail. exact Hnd.
Qed.

Lemma run_nodup (acts : list action) :
  forall s s' : System,
    run acts s = Some s' -> fresh_schedule acts s -> NoDup (live_ids s) ->
    NoDup (live_ids s').
Proof.
  induction acts as [|a acts IH]; intros s s' R Hf Hnd.
  - now injection R as <-.
  - cbn [run] in R. cbn [fresh_schedule] in Hf. destruct Hf as [Hfa Hf].
    destruct (fire a s) as [s1|] eqn:F; [|discriminate].
    apply (IH _ _ R Hf). eapply fire_nodup; eassumption.
Qed.

Lemma boot_nodup (mysql_ini : option string) (world : nat -> creation) :
  NoDup (live_ids (boot mysql_ini world)).
Proof.
  unfold live_ids, live.
  destruct (QueueOrder.boot_queue mysql_ini world) as [n Hq].
  rewrite Hq, (proj2 (boot_conserved mysql_ini world)), app_nil_r, map_map.
  cbn. rewrite map_id. apply seq_NoDup.
Qed.

(** X16.  When [new Connection()] never returns an object that is still
    live, a connection is in one place at a time: no object is twice in the
    queue, no two callers hold the same object, and no object is in the
    queue while a caller holds it. *)
Theorem no_double_checkout (mysql_ini : option string) (world : nat -> creation)
        (acts : list action) (s : System) :
  fresh_schedule acts (boot mysql_ini world) ->
  run acts (boot mysql_ini world) = Some s ->
  NoDup (map conn_id (_connectionQue (pool s)))
  /\ NoDup (map conn_id (handles s))
  /\ (forall c h, In c (_connectionQue (pool s)) -> In h (handles s) ->
                  conn_id c <> conn_id h).
Proof.
  intros Hf R.
  pose proof (run_nodup _ _ _ R Hf (boot_nodup mysql_ini world)) as Hnd.
  unfold live_ids, live in Hnd. rewrite map_app in Hnd.
  split; [|split].
  - now apply NoDup_app_remove_r in Hnd.
  - now apply Eviction.NoDup_app_tail in Hnd.
  - intros c h Hc Hh E.
    apply (Eviction.NoDup_app_disjoint _ _ Hnd (conn_id c)).
    + now apply in_map.
    + rewrite E. now apply in_map.
Qed.

Lemma no_double_checkout_witness :
  NoDup (map conn_id (_connectionQue (pool both_held)))
  /\ NoDup (map conn_id (handles both_held))
  /\ (forall c h, In c (_connectionQue (pool both_held)) -> In h (handles both_held) ->
                  conn_id c <> conn_id h).
Proof.
  apply (no_double_checkout (Some mysql_ini) calm both_taken both_held).
  - vm_compute. repeat split. intros [H|[]]. discriminate H.
  - vm_compute. reflexivity.
Defined.

End Ownership.

(** ** The order of service *)

Module Service.
Import PoolFacts Lifecycle.

(** As many calls of [getConnection] as the queue has connections empty
    it, front first. *)
Lemma drain (q : list Connection) :
  forall s : System,
    _connectionQue (pool s) = q ->
    run (repeat (acquire None) (List.length q)) s
    = Some (mkSystem (set_que [] (_connectionCnt (pool s)) (pool s))
              (rev q ++ handles s)
              (trace s ++ repeat notify_all (List.length q))).
Proof.
  induction q as [|c q IH]; intros s Q.
  - destruct s as [p hs tr]. destruct p. cbn in *. subst. now rewrite app_nil_r.
  - cbn [List.length repeat run fire]. unfold getConnection_loop. rewrite Q.
    rewrite IH by (cbn; now rewrite Q).
    cbn [pool handles trace hold rev]. rewrite <- !app_assoc. reflexivity.
Qed.

(** X17.  The queue is served first in, first out: a connection that is
    released goes behind everything that is idle, so the next callers get
    the connections that were idle before it, oldest first, and only the
    caller after them gets the released one, with its new idle-start
    time. *)
Theorem released_connection_is_served_last (clock : Z) (pcon : Connection) (s : System)
        (hs : list Connection) :
  drop_handle pcon (handles s) = Some hs ->
  run (release clock pcon
         :: repeat (acquire None) (S (List.length (_connectionQue (pool s))))) s
  = Some (mkSystem (set_que [] (_connectionCnt (pool s)) (pool s))
            (refreshAliveTime clock pcon :: rev (_connectionQue (pool s)) ++ hs)
            (trace s ++ repeat notify_all (S (List.length (_connectionQue (pool s)))))).
Proof.
  intros D. cbn [run fire]. rewrite D. cbn [deleter].
  replace (S (List.length (_connectionQue (pool s))))
    with (List.length (_connectionQue (pool s) ++ [refreshAliveTime clock pcon]))
    by (rewrite length_app; cbn; lia).
  rewrite (drain (_connectionQue (pool s) ++ [refreshAliveTime clock pcon])) by reflexivity.
  cbn [pool handles trace]. rewrite rev_unit, app_nil_r. reflexivity.
Qed.

Lemma released_connection_is_served_last_witness :
  run [release 50 (mkConnection 0 true 0); acquire None]
    (mkSystem exhausted_pool [mkConnection 0 true 0] [])
  = Some (mkSystem (set_que [] 2 exhausted_pool) [mkConnection 0 true 50] [notify_all]).
Proof.
  apply (released_connection_is_served_last 50 (mkConnection 0 true 0)
           (mkSystem exhausted_pool [mkConnection 0 true 0] []) []).
  reflexivity.
Defined.

Lemma getConnection_waits_done_stays (r : shared_ptr) (p : ConnectionPool) (ev : list event)
      (ws : list (cv_status * ConnectionPool)) :
  getConnection_waits (done r p ev) ws = done r p ev.
Proof. now destruct ws. Qed.

(** X18.  A call of [getConnection] is still waiting exactly when it found
    the queue empty on entry and at every return from [cv.wait_for], and
    none of those returns was an expiry: a wake-up without a connection
    sends the caller back to sleep, and nothing else keeps it there. *)
Theorem getConnection_blocked_iff (p : ConnectionPool)
        (ws : list (cv_status * ConnectionPool)) :
  getConnection p ws = blocked
  <-> _connectionQue p = []
      /\ Forall (fun w => fst w = no_timeout /\ _connectionQue (snd w) = []) ws.
Proof.
  unfold getConnection, getConnection_loop.
  destruct (_connectionQue p) as [|c q].
  - assert (L : getConnection_waits blocked ws = blocked
                <-> Forall (fun w => fst w = no_timeout /\ _connectionQue (snd w) = []) ws).
    { induction ws as [|[st p1] ws IH]; cbn [getConnection_waits].
      - split; [constructor | reflexivity].
      - destruct st; cbn [getConnection_wake]; unfold getConnection_loop;
          destruct (_connectionQue p1) as [|c1 q1] eqn:Q1;
          rewrite ?getConnection_waits_done_stays.
        + rewrite IH. split.
          * intros H. constructor; [now split | exact H].
          * intros H. now inversion H.
        + split; [discriminate|]. intros H. inversion H as [|? ? [_ Hq] _]; subst.
          cbn in Hq. congruence.
        + split; [discriminate|]. intros H. inversion H as [|? ? [Hst _] _]. discriminate.
        + split; [discriminate|]. intros H. inversion H as [|? ? [Hst _] _]. discriminate. }
    rewrite L. tauto.
  - rewrite getConnection_waits_done_stays. split; [discriminate | intros [H _]; discriminate].
Qed.

Lemma getConnection_blocked_iff_witness :
  getConnection exhausted_pool [(no_timeout, exhausted_pool); (no_timeout, exhausted_pool)]
  = blocked.
Proof.
  apply (proj2 (getConnection_blocked_iff exhausted_pool
                  [(no_timeout, exhausted_pool); (no_timeout, exhausted_pool)])).
  split; [reflexivity|]. repeat constructor.
Defined.

(** X19.  Growth on demand.  A caller waits on an empty queue and the
    producer takes its turn.  Below the ceiling the producer makes one
    connection and the caller, woken, leaves with it: the counter is one
    higher and the queue is empty again.  At the ceiling the producer only
    notifies: the caller goes back to sleep, and when its wait expires it
    leaves with nothing and the pool is as it was. *)
Theorem growth_on_demand (id : nat) (w : creation) (s : System) :
  started producer s = true -> _connectionQue (pool s) = [] ->
  (_connectionCnt (pool s) < _maxSize (pool s) ->
   run [produce id w; acquire (Some no_timeout)] s
   = Some (mkSystem (set_que [] (_connectionCnt (pool s) + 1) (pool s))
             (create id w :: handles s)
             (trace s ++ [notify_all; notify_all])))
  /\ (_maxSize (pool s) <= _connectionCnt (pool s) ->
      run [produce id w; acquire (Some no_timeout)] s = None
      /\ run [produce id w; acquire (Some timeout)] s
         = Some (mkSystem (pool s) (handles s)
                   (trace s ++ [notify_all; LOG timeout_message]))).
Proof.
  intros St Q. split.
  - intros Hlt. apply Z.ltb_lt in Hlt.
    cbn [run fire]. rewrite St. unfold produceConnectionTask. rewrite Q, Hlt.
    cbn [pool handles trace getConnection_wake].
    unfold getConnection_loop, cnt_incr, que_push, que_pop.
    cbn [set_que _connectionQue _connectionCnt]. rewrite Q.
    cbn [app tl hold]. rewrite <- app_assoc. reflexivity.
  - intros Hge. apply Z.ltb_ge in Hge.
    cbn [run fire]. rewrite St. unfold produceConnectionTask. rewrite Q, Hge.
    cbn [pool getConnection_wake]. unfold getConnection_loop. rewrite Q.
    split; [reflexivity|]. cbn. rewrite <- app_assoc. reflexivity.
Qed.

Lemma growth_on_demand_witness :
  run [produce 7 (mkCreation true 5); acquire (Some no_timeout)]
    (mkSystem drained_pool [mkConnection 0 true 0] [thread_detach producer])
  = Some (mkSystem (set_que [] 2 drained_pool)
            [mkConnection 7 true 5; mkConnection 0 true 0]
            [thread_detach producer; notify_all; notify_all])
  /\ run [produce 8 (mkCreation true 6); acquire (Some timeout)] both_held
     = Some (mkSystem (pool both_held) (handles both_held)
               (trace both_held ++ [notify_all; LOG timeout_message])).
Proof.
  split.
  - apply (proj1 (growth_on_demand 7 (mkCreation true 5)
                    (mkSystem drained_pool [mkConnection 0 true 0] [thread_detach producer])
                    eq_refl eq_refl)).
    reflexivity.
  - apply (proj2 (growth_on_demand 8 (mkCreation true 6) both_held eq_refl eq_refl)).
    vm_compute. discriminate.
Defined.

End Service.
